(** * Terracotta: raster-pattern matching, ingestion and metadata key parsing

    A shallow embedding of
      - [terracotta/scripts/click_utils.py]  ([RasterPattern.convert]),
      - [terracotta/scripts/ingest.py]       ([ingest], [push_to_last]),
      - [terracotta/api/metadata.py]         ([get_metadata]),
    together with the parts of the Python standard library they rely on
    ([re.escape], [re.match] on the patterns the converter emits,
    [str.split]), and the properties of the design document stated and
    proved (or refuted) on that embedding. *)

From Stdlib Require Import Ascii String List Bool Arith Lia ZArith
  Permutation.
Import ListNotations.

Set Warnings "-register-all".

Set Implicit Arguments.

(* ================================================================= *)
(** ** Strings *)

(** Python [str] values are sequences of code points; paths, key names and
    patterns are modelled as lists of 8-bit characters, read as the code
    points U+0000..U+00FF. *)
Definition str := list ascii.

Definition lit (s : string) : str := list_ascii_of_string s.
Coercion lit : string >-> str.

Definition str_eq_dec : forall a b : str, {a = b} + {a <> b} :=
  list_eq_dec ascii_dec.

Definition str_eqb (a b : str) : bool :=
  if str_eq_dec a b then true else false.

(** A key tuple. *)
Abbreviation tuple := (list str) (only parsing).

Definition tuple_eq_dec : forall a b : tuple, {a = b} + {a <> b} :=
  list_eq_dec str_eq_dec.

(** [x in xs] on a Python list or tuple of strings. *)
Definition mem (x : str) (xs : list str) : bool :=
  if in_dec str_eq_dec x xs then true else false.

(** [xs.index(x)]: position of the first occurrence ([ValueError] when
    absent). *)
Fixpoint index (x : str) (xs : list str) : option nat :=
  match xs with
  | [] => None
  | y :: ys =>
      if str_eq_dec x y then Some 0
      else match index x ys with Some i => Some (S i) | None => None end
  end.

(** [s.startswith(p)], returning what follows the prefix. *)
Fixpoint strip_prefix (p s : str) : option str :=
  match p, s with
  | [], _ => Some s
  | a :: p', b :: s' => if (a =? b)%char then strip_prefix p' s' else None
  | _ :: _, [] => None
  end.

(* ----------------------------------------------------------------- *)
(** *** Character classes (code points below 256) *)

Definition code (c : ascii) : nat := nat_of_ascii c.

Definition between (lo hi : nat) (c : ascii) : bool :=
  (lo <=? code c) && (code c <=? hi).

Definition is_digit (c : ascii) : bool := between 48 57 c.
Definition is_octal (c : ascii) : bool := between 48 55 c.
Definition digit_val (c : ascii) : nat := code c - 48.

Definition is_ascii_letter (c : ascii) : bool :=
  between 65 90 c || between 97 122 c.

(** Latin-1 letters: the feminine and masculine ordinal indicators, the
    micro sign, and the accented letters. *)
Definition is_latin1_letter (c : ascii) : bool :=
  between 170 170 c || between 181 181 c || between 186 186 c ||
  between 192 214 c || between 216 246 c || between 248 255 c.

(** Latin-1 characters that are numeric without being decimal digits:
    superscripts two, three, one and the vulgar fractions. *)
Definition is_latin1_numeric (c : ascii) : bool :=
  between 178 179 c || between 185 185 c || between 188 190 c.

(** [c.isalnum()], which is what the class [[^\W_]] accepts. *)
Definition is_alnum (c : ascii) : bool :=
  is_digit c || is_ascii_letter c || is_latin1_letter c || is_latin1_numeric c.

(** The class [\w]. *)
Definition is_word (c : ascii) : bool := is_alnum c || (c =? "_")%char.

Definition is_id_start (c : ascii) : bool :=
  is_ascii_letter c || (c =? "_")%char || is_latin1_letter c.

Definition is_id_continue (c : ascii) : bool :=
  is_id_start c || is_digit c || between 183 183 c.

(** [name.isidentifier()]. *)
Definition is_identifier (name : str) : bool :=
  match name with
  | [] => false
  | c :: cs => is_id_start c && forallb is_id_continue cs
  end.

(* ----------------------------------------------------------------- *)
(** *** Decimal rendering of a number, as an f-string does *)

Definition digit_char (d : nat) : ascii := ascii_of_nat (48 + d).

Fixpoint dec_digits (fuel n : nat) (acc : str) : str :=
  match fuel with
  | 0 => acc
  | S fuel' =>
      let acc' := digit_char (n mod 10) :: acc in
      if n <? 10 then acc' else dec_digits fuel' (n / 10) acc'
  end.

Definition str_of_nat (n : nat) : str := dec_digits (S n) n [].

(* ================================================================= *)
(** ** The [re] module, on the patterns the converter emits *)

Module PyRe.

(** [re.escape] (Python 3.7 and later): a backslash before each of the
    characters [()[]{}?*+-|^$\.&~#], space, tab, newline, carriage return,
    vertical tab and form feed. *)
Definition escape_special (c : ascii) : bool :=
  existsb (fun d => (c =? d)%char)
    (lit "()[]{}?*+-|^$\.&~# " ++
     map ascii_of_nat [9; 10; 11; 12; 13]).

Definition escape_char (c : ascii) : str :=
  if escape_special c then ["\"%char; c] else [c].

Definition escape (s : str) : str := flat_map escape_char s.

(** The characters the pattern parser does not read as literals. *)
Definition parser_special (c : ascii) : bool :=
  existsb (fun d => (c =? d)%char) (lit ".\[{()*+?^$|").

(** Parsed patterns.  Only the constructs the converter emits are
    represented, together with plain capturing groups:
      - a literal character,
      - [.*?],
      - [[^\W_]+],
      - a back-reference [\g],
      - a capturing group numbered [g] (named or not). *)
Inductive node : Type :=
| NChar (c : ascii)
| NAnyLazy
| NAlnumPlus
| NBackref (g : nat)
| NGroup (g : nat) (body : list node).

(** Parser state: the enclosing open groups, innermost first, each with its
    number and the nodes read before it at the level above; the nodes read
    so far at the current level, last first; the number of groups opened;
    the group names defined. *)
Record pstate : Type := mk_pstate {
  frames : list (nat * list node);
  cur : list node;
  ngroups : nat;
  names : list str
}.

Definition pstate0 : pstate := mk_pstate [] [] 0 [].

Definition push (n : node) (st : pstate) : pstate :=
  mk_pstate (frames st) (n :: cur st) (ngroups st) (names st).

Definition open_group (name : option str) (st : pstate) : pstate :=
  mk_pstate ((S (ngroups st), cur st) :: frames st) [] (S (ngroups st))
    (match name with Some nm => nm :: names st | None => names st end).

(** A back-reference is accepted when the group exists and is closed. *)
Definition backref_ok (g : nat) (st : pstate) : bool :=
  (1 <=? g) && (g <=? ngroups st) &&
  negb (existsb (Nat.eqb g) (map fst (frames st))).

Inductive compiled : Type :=
| CompOk (n : nat) (nodes : list node)   (* group count and pattern *)
| CompError                              (* [re.error] *)
| CompUnmodelled.                        (* syntax outside this model *)

(** The pattern parser.  [nm] is [Some acc] while a group name is being
    read after [(?P<], [acc] holding its characters last first.

    Escapes: a backslash and a non-zero digit start a back-reference of
    one or two digits, unless three octal digits follow each other, which
    denote a character; a backslash before any character that is neither
    a digit nor an ASCII letter denotes that character. *)
Fixpoint parse (s : str) (nm : option str) (st : pstate) {struct s}
  : compiled :=
  match nm with
  | Some acc =>
      match s with
      | [] => CompError
      | c :: r =>
          if (c =? ">")%char then
            if is_identifier (rev acc) && negb (mem (rev acc) (names st))
            then parse r None (open_group (Some (rev acc)) st)
            else CompError
          else parse r (Some (c :: acc)) st
      end
  | None =>
      match s with
      | [] =>
          match frames st with
          | [] => CompOk (ngroups st) (rev (cur st))
          | _ :: _ => CompError
          end
      | c :: r =>
          if (c =? "\")%char then
            match r with
            | [] => CompError
            | d1 :: r1 =>
                if is_digit d1 then
                  if (d1 =? "0")%char then CompUnmodelled else
                  match r1 with
                  | [] =>
                      if backref_ok (digit_val d1) st
                      then parse r1 None (push (NBackref (digit_val d1)) st)
                      else CompError
                  | d2 :: r2 =>
                      if is_digit d2 then
                        match r2 with
                        | [] =>
                            if backref_ok (10 * digit_val d1 + digit_val d2) st
                            then parse r2 None
                                   (push (NBackref
                                            (10 * digit_val d1 + digit_val d2)) st)
                            else CompError
                        | d3 :: r3 =>
                            if is_octal d1 && is_octal d2 && is_octal d3 then
                              if 64 * digit_val d1 + 8 * digit_val d2
                                 + digit_val d3 <=? 255
                              then parse r3 None
                                     (push (NChar
                                              (ascii_of_nat
                                                 (64 * digit_val d1
                                                  + 8 * digit_val d2
                                                  + digit_val d3))) st)
                              else CompError
                            else
                              if backref_ok
                                   (10 * digit_val d1 + digit_val d2) st
                              then parse r2 None
                                     (push (NBackref
                                              (10 * digit_val d1
                                               + digit_val d2)) st)
                              else CompError
                        end
                      else
                        if backref_ok (digit_val d1) st
                        then parse r1 None (push (NBackref (digit_val d1)) st)
                        else CompError
                  end
                else if is_ascii_letter d1 then CompUnmodelled
                else parse r1 None (push (NChar d1) st)
            end
          else if (c =? ".")%char then
            match r with
            | c2 :: c3 :: r2 =>
                if (c2 =? "*")%char && (c3 =? "?")%char
                then parse r2 None (push NAnyLazy st)
                else CompUnmodelled
            | _ => CompUnmodelled
            end
          else if (c =? "[")%char then
            match r with
            | c2 :: c3 :: c4 :: c5 :: c6 :: c7 :: r2 =>
                if str_eqb [c2; c3; c4; c5; c6; c7] (lit "^\W_]+")
                then parse r2 None (push NAlnumPlus st)
                else CompUnmodelled
            | _ => CompUnmodelled
            end
          else if (c =? "(")%char then
            match r with
            | c2 :: r1 =>
                if (c2 =? "?")%char then
                  match r1 with
                  | c3 :: c4 :: r2 =>
                      if (c3 =? "P")%char && (c4 =? "<")%char
                      then parse r2 (Some []) st
                      else CompUnmodelled
                  | _ => CompUnmodelled
                  end
                else parse r None (open_group None st)
            | [] => parse r None (open_group None st)
            end
          else if (c =? ")")%char then
            match frames st with
            | [] => CompError
            | (g, above) :: fs =>
                parse r None
                  (mk_pstate fs (NGroup g (rev (cur st)) :: above)
                     (ngroups st) (names st))
            end
          else if parser_special c then CompUnmodelled
          else parse r None (push (NChar c) st)
      end
  end.

Definition compile (pattern : str) : compiled := parse pattern None pstate0.

(* ----------------------------------------------------------------- *)
(** *** Matching *)

(** The text captured by each group, in group order. *)
Definition caps := list str.

Fixpoint set_nth (i : nat) (v : str) (cs : caps) : caps :=
  match cs, i with
  | [], _ => []
  | _ :: cs', 0 => v :: cs'
  | c :: cs', S i' => c :: set_nth i' v cs'
  end.

Definition set_cap (g : nat) (v : str) (cs : caps) : caps :=
  set_nth (g - 1) v cs.

(** What was consumed between the input [s] and its suffix [s']. *)
Definition consumed (s s' : str) : str :=
  firstn (length s - length s') s.

Definition cont := caps -> str -> option (caps * str).

(** [.*?]: the shortest run of characters other than newline after which
    the rest of the pattern matches. *)
Fixpoint lazy_loop (k : str -> option (caps * str)) (s : str)
  : option (caps * str) :=
  match k s with
  | Some r => Some r
  | None =>
      match s with
      | [] => None
      | c :: s' => if (c =? "010")%char then None else lazy_loop k s'
      end
  end.

(** [[^\W_]+]: the longest non-empty run of alphanumeric characters after
    which the rest of the pattern matches. *)
Fixpoint greedy_loop (k : str -> option (caps * str)) (s : str)
  : option (caps * str) :=
  match s with
  | [] => None
  | c :: s' =>
      if is_alnum c then
        match greedy_loop k s' with
        | Some r => Some r
        | None => k s'
        end
      else None
  end.

(** Backtracking matcher in continuation-passing style: [k] is the rest of
    the pattern. *)
Fixpoint m_node (n : node) (k : cont) (cs : caps) (s : str) {struct n}
  : option (caps * str) :=
  match n with
  | NChar c =>
      match s with
      | [] => None
      | c' :: s' => if (c =? c')%char then k cs s' else None
      end
  | NAnyLazy => lazy_loop (k cs) s
  | NAlnumPlus => greedy_loop (k cs) s
  | NBackref g =>
      match strip_prefix (nth (g - 1) cs []) s with
      | Some s' => k cs s'
      | None => None
      end
  | NGroup g body =>
      (fix m_body (ns : list node) (k' : cont) {struct ns} : cont :=
         match ns with
         | [] => k'
         | n' :: ns' => m_node n' (m_body ns' k')
         end)
        body (fun cs' s' => k (set_cap g (consumed s s') cs') s') cs s
  end.

Fixpoint m_list (ns : list node) (k : cont) {struct ns} : cont :=
  match ns with
  | [] => k
  | n :: ns' => m_node n (m_list ns' k)
  end.

Inductive result : Type :=
| NoMatch                                   (* [None] *)
| Match (groups : tuple) (whole : str)      (* [m.groups()], [m.group(0)] *)
| Error                                     (* [re.error] raised *)
| Unmodelled.                               (* pattern outside this model *)

(** [re.match(pattern, s)]: the pattern is matched at the start of [s] and
    need not reach its end. *)
Definition rmatch (pattern s : str) : result :=
  match compile pattern with
  | CompOk n nodes =>
      match m_list nodes (fun cs r => Some (cs, r)) (repeat [] n) s with
      | Some (cs, r) => Match cs (consumed s r)
      | None => NoMatch
      end
  | CompError => Error
  | CompUnmodelled => Unmodelled
  end.

(** [re.match(r'\w', key)] is a match exactly when [key] starts with a word
    character. *)
Definition match_w (key : str) : bool :=
  match key with
  | [] => false
  | c :: _ => is_word c
  end.

End PyRe.

(* ================================================================= *)
(** ** Outcomes, dictionaries and the filesystem *)

(** The exceptions the modelled code can raise. *)
Inductive exn : Type :=
| BadParameter (msg : string)   (* [click.BadParameter], also [self.fail] *)
| ReError                       (* [re.error] *)
| IndexError
| ValueError
| OSError                       (* [stat] of a path that does not exist *)
| OverflowError                 (* a date out of the range of [datetime] *)
| InsertError                   (* raised by the store on an insert *)
| OutsideModel.                 (* a pattern the [re] model does not cover *)

Inductive outcome (A : Type) : Type :=
| Ok (a : A)
| Raised (e : exn).

Arguments Ok {A} a.
Arguments Raised {A} e.

Definition bind {A B : Type} (m : outcome A) (f : A -> outcome B)
  : outcome B :=
  match m with
  | Ok a => f a
  | Raised e => Raised e
  end.

Notation "x <- m ;; k" := (bind m (fun x => k))
  (at level 61, m at next level, right associativity).

(** A Python [dict] from key tuples to paths: the items in insertion order,
    one per key. *)
Definition dict := list (tuple * str).

(** [d[k] = v]: an existing key keeps its position. *)
Fixpoint dict_set (k : tuple) (v : str) (d : dict) : dict :=
  match d with
  | [] => [(k, v)]
  | (k', v') :: d' =>
      if tuple_eq_dec k k' then (k', v) :: d'
      else (k', v') :: dict_set k v d'
  end.

(** [{k: v for k, v in items}]. *)
Definition dict_of_items (items : list (tuple * str)) : dict :=
  fold_left (fun d kv => dict_set (fst kv) (snd kv) d) items [].

(** [k in d]. *)
Definition dict_mem (k : tuple) (d : dict) : bool :=
  if in_dec tuple_eq_dec k (map fst d) then true else false.

(** [len(set(xs))]. *)
Definition count_distinct (xs : list tuple) : nat :=
  length (nodup tuple_eq_dec xs).

(** What the code observes of the filesystem: the paths [glob.glob]
    returns for a pattern, [os.path.realpath], and the modification time
    of a path as [datetime.fromtimestamp(Path(p).stat().st_mtime)], in
    microseconds since [datetime.min], which is how every [datetime] is
    counted here ([None] when [stat] fails). *)
Record filesystem : Type := mk_filesystem {
  glob : str -> list str;
  realpath : str -> str;
  mtime : str -> option Z
}.

(** [RasterPatternType]: the key names and the mapping from key tuples to
    paths. *)
Definition catalog : Type := list str * dict.

(* ================================================================= *)
(** ** [scripts/click_utils.py]: [RasterPattern.convert] *)

Module ClickUtils.

(** An item of [string.Formatter().parse(value)]: the literal text, then the
    name of the field that follows it ([None] when none does, [Some []]
    for [{}]).  The format spec and the conversion are not used. *)
Record segment : Type := mk_segment {
  before_field : str;
  field_name : option str
}.

(** The state of the loop over the parsed template. *)
Record patterns : Type := mk_patterns {
  keys : list str;
  glob_pattern : str;
  regex_pattern : str
}.

(** One turn of the loop over [parsed_value].  [index name keys] is [Some i]
    exactly when [field_name in keys], [i] being [keys.index(field_name)]. *)
Definition scan_step (p : patterns) (seg : segment) : patterns :=
  let glob_pattern := glob_pattern p ++ before_field seg in
  let regex_pattern := regex_pattern p ++ PyRe.escape (before_field seg) in
  match field_name seg with
  | None => mk_patterns (keys p) glob_pattern regex_pattern
  | Some name =>
      let glob_pattern := glob_pattern ++ lit "*" in
      match name with
      | [] =>
          mk_patterns (keys p) glob_pattern (regex_pattern ++ lit ".*?")
      | _ :: _ =>
          match index name (keys p) with
          | Some i =>
              mk_patterns (keys p) glob_pattern
                (regex_pattern ++ lit "\" ++ str_of_nat (i + 1))
          | None =>
              mk_patterns (keys p ++ [name]) glob_pattern
                (regex_pattern ++ lit "(?P<" ++ name ++ lit ">[^\W_]+)")
          end
      end
  end.

Definition scan (parsed_value : list segment) : patterns :=
  fold_left scan_step parsed_value (mk_patterns [] [] []).

(** [[re.match(regex_pattern, candidate) for candidate in candidates]]. *)
Fixpoint match_candidates (regex_pattern : str) (candidates : list str)
  : outcome (list (option (tuple * str))) :=
  match candidates with
  | [] => Ok []
  | candidate :: rest =>
      match PyRe.rmatch regex_pattern candidate with
      | PyRe.Error => Raised ReError
      | PyRe.Unmodelled => Raised OutsideModel
      | PyRe.NoMatch =>
          ms <- match_candidates regex_pattern rest ;; Ok (None :: ms)
      | PyRe.Match groups whole =>
          ms <- match_candidates regex_pattern rest ;;
          Ok (Some (groups, whole) :: ms)
      end
  end.

(** The matches among [matched_candidates], as [(m.groups(), m.group(0))]. *)
Fixpoint matches (ms : list (option (tuple * str))) : list (tuple * str) :=
  match ms with
  | [] => []
  | Some m :: ms' => m :: matches ms'
  | None :: ms' => matches ms'
  end.

Definition is_some {A : Type} (o : option A) : bool :=
  match o with Some _ => true | None => false end.

Definition msg_no_placeholder : string :=
  "Pattern must contain at least one placeholder".
Definition msg_alphanumeric : string := "Key names must be alphanumeric".
Definition msg_no_files : string := "Given pattern matches no files".
Definition msg_duplicate : string := "Pattern leads to duplicate keys".

(** [convert], from the parsed template on: [parsed_value] is
    [list(string.Formatter().parse(os.path.realpath(value)))]. *)
Definition convert (fs : filesystem) (parsed_value : list segment)
  : outcome catalog :=
  let p := scan parsed_value in
  match keys p with
  | [] => Raised (BadParameter msg_no_placeholder)
  | _ :: _ =>
      if negb (forallb PyRe.match_w (keys p))
      then Raised (BadParameter msg_alphanumeric)
      else
        let candidates := map (realpath fs) (glob fs (glob_pattern p)) in
        matched_candidates <- match_candidates (regex_pattern p) candidates ;;
        if negb (existsb is_some matched_candidates)
        then Raised (BadParameter msg_no_files)
        else
          let key_combinations := map fst (matches matched_candidates) in
          if negb (length key_combinations
                   =? count_distinct key_combinations)
          then Raised (BadParameter msg_duplicate)
          else Ok (keys p, dict_of_items (matches matched_candidates))
  end.

End ClickUtils.

(* ================================================================= *)
(** ** [scripts/ingest.py]: [ingest] *)

Module Ingest.

(** [push_to_last(seq, index)]: the tuple made of [seq[:index]], then
    [seq[index + 1:]], then [seq[index]], which raises when [index] is out
    of range. *)
Definition push_to_last {A : Type} (seq : list A) (index : nat)
  : outcome (list A) :=
  match nth_error seq index with
  | Some x => Ok (firstn index seq ++ skipn (S index) seq ++ [x])
  | None => Raised IndexError
  end.

(** [[f(x) for x in xs]] for an [f] that can raise. *)
Fixpoint map_outcome {A B : Type} (f : A -> outcome B) (xs : list A)
  : outcome (list B) :=
  match xs with
  | [] => Ok []
  | x :: xs' => y <- f x ;; ys <- map_outcome f xs' ;; Ok (y :: ys)
  end.

Definition msg_rgb_key : string := "RGB key not found in raster pattern".

(** The [if rgb_key is not None:] block. *)
Definition reorder (rgb_key : str) (raster_pattern : catalog)
  : outcome catalog :=
  let (keys, raster_files) := raster_pattern in
  if negb (mem rgb_key keys) then Raised (BadParameter msg_rgb_key)
  else
    match index rgb_key keys with
    | None => Raised ValueError
    | Some rgb_idx =>
        keys' <- push_to_last keys rgb_idx ;;
        items <- map_outcome
                   (fun kv => k <- push_to_last (fst kv) rgb_idx ;;
                              Ok (k, snd kv))
                   raster_files ;;
        Ok (keys', dict_of_items items)
    end.

(** The [if skip_existing:] comprehension, [existing] being
    [driver.get_datasets()]. *)
Definition filter_existing (existing : dict) (raster_files : dict) : dict :=
  dict_of_items
    (filter (fun kv => negb (dict_mem (fst kv) existing)) raster_files).

(** [--ignore-older-than]: a [timedelta] back from now, in microseconds, or
    a [datetime]. *)
Inductive age : Type :=
| Delta (d : Z)
| At (t : Z).

(** [datetime.max], 9999-12-31 23:59:59.999999, counted from
    [datetime.min]. *)
Definition datetime_max : Z := 315537897599999999.

(** [cutoff_time]: [datetime.now() - ignore_older_than] raises when the
    difference is not a [datetime]. *)
Definition cutoff_time (now : Z) (ignore_older_than : age) : outcome Z :=
  match ignore_older_than with
  | Delta d =>
      if ((0 <=? now - d) && (now - d <=? datetime_max))%Z
      then Ok (now - d)%Z
      else Raised OverflowError
  | At t => Ok t
  end.

(** The items kept by the age comprehension; [stat] is called on each path
    in turn and its failure ends the comprehension. *)
Fixpoint newer_items (fs : filesystem) (cutoff : Z)
    (items : list (tuple * str)) : outcome (list (tuple * str)) :=
  match items with
  | [] => Ok []
  | (key, path) :: rest =>
      match mtime fs path with
      | None => Raised OSError
      | Some t =>
          kept <- newer_items fs cutoff rest ;;
          Ok (if (cutoff <? t)%Z then (key, path) :: kept else kept)
      end
  end.

Definition filter_age (fs : filesystem) (cutoff : Z) (raster_files : dict)
  : outcome dict :=
  items <- newer_items fs cutoff raster_files ;; Ok (dict_of_items items).

(** Modelled from the spec: the dataset store behind [get_driver], of which
    the repository's sources here show only the calls.  The store contract
    lists [create(keyNames)], [keyNames], [getExistingKeys()] and
    [insert(KeyTuple, path, skipMetadata)]; an existing dataset is
    overwritten by an insert, and an insert can fail, which [rejects]
    decides. *)
Record store : Type := mk_store {
  is_file : bool;            (* [output_file.is_file()] *)
  key_names : list str;      (* [driver.key_names] *)
  datasets : dict;           (* [driver.get_datasets()] *)
  rejects : tuple -> str -> bool
}.

(** Modelled from the spec: [create(keyNames)] of the store contract makes
    an empty store with these key names. *)
Definition create (keys : list str) (st : store) : store :=
  mk_store true keys [] (rejects st).

(** Modelled from the spec: [insert(KeyTuple, path, skipMetadata)] of the
    store contract records the path under the key tuple, or fails. *)
Definition insert (key : tuple) (path : str) (st : store) : outcome store :=
  if rejects st key path then Raised InsertError
  else Ok (mk_store (is_file st) (key_names st)
             (dict_set key path (datasets st)) (rejects st)).

(** What a run does besides returning. *)
Inductive event : Type :=
| EchoIncompatible                                (* the message on stderr *)
| Inserted (key : tuple) (path : str) (skip_metadata : bool)
| ClearCache.                                     (* the request to the cache *)

Record run : Type := mk_run {
  result : outcome unit;
  final : store;
  trace : list event
}.

(** The loop [for key, filepath in progress: driver.insert(...)]. *)
Fixpoint insert_all (skip_metadata : bool) (items : list (tuple * str))
    (st : store) : run :=
  match items with
  | [] => mk_run (Ok tt) st []
  | (key, filepath) :: rest =>
      match insert key filepath st with
      | Raised e => mk_run (Raised e) st []
      | Ok st' =>
          let r := insert_all skip_metadata rest st' in
          mk_run (result r) (final r)
            (Inserted key filepath skip_metadata :: trace r)
      end
  end.

Definition keys_eqb (a b : list str) : bool :=
  if tuple_eq_dec a b then true else false.

(** [ingest].  [st] is the store found at [output_file]; [now] is
    [datetime.now()], in microseconds since [datetime.min].
    [click.Abort()] builds an exception and drops it: no
    [raise] precedes it. *)
Definition ingest (fs : filesystem) (now : Z)
    (raster_pattern : catalog) (st : store) (skip_metadata : bool)
    (rgb_key : option str) (skip_existing : bool)
    (ignore_older_than : option age) : run :=
  match (match rgb_key with
         | None => Ok raster_pattern
         | Some k => reorder k raster_pattern
         end) with
  | Raised e => mk_run (Raised e) st []
  | Ok (keys, raster_files) =>
      let st := if negb (is_file st) then create keys st else st in
      let raster_files :=
        if skip_existing then filter_existing (datasets st) raster_files
        else raster_files in
      let echoed :=
        if negb (keys_eqb keys (key_names st)) then [EchoIncompatible]
        else [] in
      match (match ignore_older_than with
             | None => Ok raster_files
             | Some a =>
                 cutoff <- cutoff_time now a ;;
                 filter_age fs cutoff raster_files
             end) with
      | Raised e => mk_run (Raised e) st echoed
      | Ok raster_files =>
          let r := insert_all skip_metadata raster_files st in
          match result r with
          | Raised e => mk_run (Raised e) (final r) (echoed ++ trace r)
          | Ok _ =>
              mk_run (Ok tt) (final r) (echoed ++ trace r ++ [ClearCache])
          end
      end
  end.

End Ingest.

(* ================================================================= *)
(** ** [api/metadata.py]: [get_metadata] *)

Module Metadata.

(** [s.split(sep)] for a one-character separator. *)
Fixpoint split (sep : ascii) (s : str) : list str :=
  match s with
  | [] => [[]]
  | c :: s' =>
      if (c =? sep)%char then [] :: split sep s'
      else
        match split sep s' with
        | [] => [[c]]
        | w :: ws => (c :: w) :: ws
        end
  end.

Definition nonempty (s : str) : bool :=
  match s with [] => false | _ :: _ => true end.

(** [[key for key in keys.split('/') if key]]. *)
Definition parsed_keys (keys : str) : list str :=
  filter nonempty (split "/" keys).

(** [get_metadata], the handler [metadata] and the rendering of its payload
    being the collaborators. *)
Definition get_metadata {P R : Type} (metadata : list str -> P)
    (render : P -> R) (keys : str) : R :=
  render (metadata (parsed_keys keys)).

End Metadata.

(* ================================================================= *)
(** ** Notions used in the statements *)

(** The catalog invariant of the design document: one path per key tuple,
    and every key tuple as long as the list of key names. *)
Definition wf_catalog (c : catalog) : Prop :=
  NoDup (map fst (snd c)) /\
  Forall (fun kv => length (fst kv) = length (fst c)) (snd c).

(** The element at position [n] removed and appended at the end. *)
Definition move_last {A : Type} (n : nat) (t : list A) : list A :=
  firstn n t ++ skipn (S n) t ++ firstn 1 (skipn n t).

(** The catalog after the [if skip_existing:] block, which rebinds
    [raster_files] and leaves [keys] alone. *)
Definition skip_existing_stage (existing : dict) (c : catalog) : catalog :=
  (fst c, Ingest.filter_existing existing (snd c)).

(** The modification time the age filter reads for an entry. *)
Definition newer_than (fs : filesystem) (cutoff : Z) (kv : tuple * str)
  : bool :=
  match mtime fs (snd kv) with
  | Some t => (cutoff <? t)%Z
  | None => false
  end.

(** What a candidate contributes to [matched_candidates] when the pattern
    compiles. *)
Definition match_of (regex_pattern candidate : str) : option (tuple * str) :=
  match PyRe.rmatch regex_pattern candidate with
  | PyRe.Match groups whole => Some (groups, whole)
  | _ => None
  end.

(** Two key paths that differ only in leading, trailing or repeated
    slashes. *)
Inductive same_up_to_slashes : str -> str -> Prop :=
| sus_refl : forall s, same_up_to_slashes s s
| sus_sym : forall s t, same_up_to_slashes s t -> same_up_to_slashes t s
| sus_trans : forall s t u,
    same_up_to_slashes s t -> same_up_to_slashes t u ->
    same_up_to_slashes s u
| sus_leading : forall s, same_up_to_slashes ("/"%char :: s) s
| sus_trailing : forall s, same_up_to_slashes (s ++ ["/"%char]) s
| sus_repeated : forall a b,
    same_up_to_slashes (a ++ "/"%char :: "/"%char :: b)
                       (a ++ "/"%char :: b).

(* ================================================================= *)
(** ** Templates, their values and their patterns *)

Module Template.

Import ClickUtils.

(** The path a template stands for once its fields have values: the
    literal text, with [value name] in place of each field [name]. *)
Fixpoint substitute (value : str -> str) (segs : list segment) : str :=
  match segs with
  | [] => []
  | seg :: rest =>
      before_field seg
      ++ match field_name seg with
         | None => []
         | Some name => value name
         end
      ++ substitute value rest
  end.

(** The round trip of the design document: matching the files made from the
    valuations [values] gives, for each of them in turn, the key tuple of
    the values it gave to the key names, mapped to the file's path. *)
Definition round_trip (fs : filesystem) (segs : list segment)
    (values : list (str -> str)) : Prop :=
  convert fs segs
  = Ok (keys (scan segs),
        map (fun value => (map value (keys (scan segs)),
                           substitute value segs)) values).

(** What follows a field is the end of the template or literal text that
    starts with a character that is not alphanumeric. *)
Definition follows_ok (rest : list segment) : bool :=
  match rest with
  | [] => true
  | seg :: _ =>
      match before_field seg with
      | c :: _ => negb (is_alnum c)
      | [] => false
      end
  end.

(** Templates whose fields are all named by identifiers and delimited. *)
Fixpoint delimited (segs : list segment) : bool :=
  match segs with
  | [] => true
  | seg :: rest =>
      match field_name seg with
      | None => true
      | Some name => is_identifier name && follows_ok rest
      end && delimited rest
  end.

(** A value a named field can stand for: alphanumeric and not empty. *)
Definition alnum_value (s : str) : Prop :=
  s <> [] /\ forallb is_alnum s = true.

(** The loop of [scan], one segment at a time from the keys found so far:
    the keys after the segment, the text it adds to the regex pattern, and
    what that text parses to. *)
Definition step_keys (ks : list str) (seg : segment) : list str :=
  match field_name seg with
  | Some (c :: n) =>
      match index (c :: n) ks with
      | Some _ => ks
      | None => ks ++ [c :: n]
      end
  | _ => ks
  end.

Definition step_regex (ks : list str) (seg : segment) : str :=
  PyRe.escape (before_field seg)
  ++ match field_name seg with
     | None => []
     | Some [] => lit ".*?"
     | Some (c :: n) =>
         match index (c :: n) ks with
         | Some i => lit "\" ++ str_of_nat (i + 1)
         | None => lit "(?P<" ++ (c :: n) ++ lit ">[^\W_]+)"
         end
     end.

Definition step_nodes (ks : list str) (seg : segment) : list PyRe.node :=
  map PyRe.NChar (before_field seg)
  ++ match field_name seg with
     | None => []
     | Some [] => [PyRe.NAnyLazy]
     | Some (c :: n) =>
         match index (c :: n) ks with
         | Some i => [PyRe.NBackref (i + 1)]
         | None => [PyRe.NGroup (S (length ks)) [PyRe.NAlnumPlus]]
         end
     end.

Fixpoint keys_from (ks : list str) (segs : list segment) : list str :=
  match segs with
  | [] => ks
  | seg :: rest => keys_from (step_keys ks seg) rest
  end.

Fixpoint regex_from (ks : list str) (segs : list segment) : str :=
  match segs with
  | [] => []
  | seg :: rest => step_regex ks seg ++ regex_from (step_keys ks seg) rest
  end.

Fixpoint nodes_from (ks : list str) (segs : list segment)
  : list PyRe.node :=
  match segs with
  | [] => []
  | seg :: rest => step_nodes ks seg ++ nodes_from (step_keys ks seg) rest
  end.

(** The decimal rendering of [g] has one or two digits, the first of them
    not a zero, and reads back as [g]. *)
Definition two_digits (g : nat) : bool :=
  match str_of_nat g with
  | [d1] =>
      is_digit d1 && negb (d1 =? "0")%char && (digit_val d1 =? g)
  | [d1; d2] =>
      is_digit d1 && negb (d1 =? "0")%char && is_digit d2
      && (10 * digit_val d1 + digit_val d2 =? g)
  | _ => false
  end.

Definition no_digit_head (s : str) : bool :=
  match s with
  | [] => true
  | c :: _ => negb (is_digit c)
  end.

Definition no_alnum_head (s : str) : bool :=
  match s with
  | [] => true
  | c :: _ => negb (is_alnum c)
  end.

End Template.

(* ================================================================= *)
(** ** Worked inputs *)

Module Examples.

Import ClickUtils Ingest Template.

Fixpoint lookup {B : Type} (k : str) (table : list (str * B)) : option B :=
  match table with
  | [] => None
  | (k', b) :: rest => if str_eq_dec k k' then Some b else lookup k rest
  end.

(** A filesystem given by what each glob pattern lists and by the
    modification times of its files; every path is already canonical. *)
Definition fs_of (listing : list (str * list str)) (times : list (str * Z))
  : filesystem :=
  mk_filesystem
    (fun pattern =>
       match lookup pattern listing with Some l => l | None => [] end)
    (fun path => path)
    (fun path => lookup path times).

(** [/d/{a_b}.tif] and a directory holding [/d/x.tif]. *)
Definition tmpl_underscore : list segment :=
  [mk_segment (lit "/d/") (Some (lit "a_b")); mk_segment (lit ".tif") None].

Definition fs_one_file : filesystem :=
  fs_of [(lit "/d/*.tif", [lit "/d/x.tif"])] [].

(** [/d/{a>(b)}.tif] and a directory holding [/d/b>x.tif]. *)
Definition tmpl_group_in_name : list segment :=
  [mk_segment (lit "/d/") (Some (lit "a>(b)")); mk_segment (lit ".tif") None].

Definition fs_group_in_name : filesystem :=
  fs_of [(lit "/d/*.tif", [lit "/d/b>x.tif"])] [].

(** [/d/{name}.tif], an empty directory, and a directory whose only file is
    [/d/x-y.tif]. *)
Definition tmpl_name : list segment :=
  [mk_segment (lit "/d/") (Some (lit "name")); mk_segment (lit ".tif") None].

Definition fs_no_files : filesystem := fs_of [] [].

Definition fs_no_match : filesystem :=
  fs_of [(lit "/d/*.tif", [lit "/d/x-y.tif"])] [].

(** [/{name}/{date}_{band}{}.tif] with [/a/2020_red_x.tif] and
    [/a/2020_red_y.tif]. *)
Definition tmpl_bands : list segment :=
  [mk_segment (lit "/") (Some (lit "name"));
   mk_segment (lit "/") (Some (lit "date"));
   mk_segment (lit "_") (Some (lit "band"));
   mk_segment [] (Some []);
   mk_segment (lit ".tif") None].

Definition fs_bands : filesystem :=
  fs_of [(lit "/*/*_**.tif",
          [lit "/a/2020_red_x.tif"; lit "/a/2020_red_y.tif"])] [].

(** [/{name}/{band}.tif] with [/p/red.tif] and [/p/green.tif], modified at
    times 100 and 200. *)
Definition tmpl_pg : list segment :=
  [mk_segment (lit "/") (Some (lit "name"));
   mk_segment (lit "/") (Some (lit "band"));
   mk_segment (lit ".tif") None].

Definition fs_pg : filesystem :=
  fs_of [(lit "/*/*.tif", [lit "/p/red.tif"; lit "/p/green.tif"])]
        [(lit "/p/red.tif", 100%Z); (lit "/p/green.tif", 200%Z)].

Definition cat_pg : catalog :=
  ([lit "name"; lit "band"],
   [([lit "p"; lit "red"], lit "/p/red.tif");
    ([lit "p"; lit "green"], lit "/p/green.tif")]).

(** [/d/{a}{b}.tif], the file made with [x] for [a] and [yz] for [b], and
    a directory holding it. *)
Definition tmpl_adjacent : list segment :=
  [mk_segment (lit "/d/") (Some (lit "a"));
   mk_segment [] (Some (lit "b"));
   mk_segment (lit ".tif") None].

Definition value_adjacent (name : str) : str :=
  if str_eq_dec name (lit "a") then lit "x" else lit "yz".

Definition fs_adjacent : filesystem :=
  fs_of [(lit "/d/**.tif", [lit "/d/xyz.tif"])] [].

(** [/d/{name}{}] and the file [/d/a.tif]. *)
Definition tmpl_open_end : list segment :=
  [mk_segment (lit "/d/") (Some (lit "name")); mk_segment [] (Some [])].

Definition fs_open_end : filesystem :=
  fs_of [(lit "/d/**", [lit "/d/a.tif"])] [].

(** The valuations that made [/p/red.tif] and [/p/green.tif]. *)
Definition value_red (name : str) : str :=
  if str_eq_dec name (lit "name") then lit "p" else lit "red".

Definition value_green (name : str) : str :=
  if str_eq_dec name (lit "name") then lit "p" else lit "green".

(** An existing store whose key names are [b], and a catalog whose key
    names are [a]. *)
Definition store_b : store :=
  mk_store true [lit "b"] [] (fun _ _ => false).

Definition cat_a : catalog := ([lit "a"], [([lit "x"], lit "/d/x.tif")]).

End Examples.

(* ================================================================= *)
(** ** Notions used in the further properties *)

Module More.

Import ClickUtils Ingest.

(** [d.get(k)]. *)
Fixpoint dict_get (k : tuple) (d : dict) : option str :=
  match d with
  | [] => None
  | (k', v) :: d' => if tuple_eq_dec k k' then Some v else dict_get k d'
  end.

(** ['/'.join(keys)]. *)
Fixpoint join_slash (ks : list str) : str :=
  match ks with
  | [] => []
  | [k] => k
  | k :: rest => k ++ "/"%char :: join_slash rest
  end.

(** A key as the metadata route can address it: not empty, no slash. *)
Definition plain_key (k : str) : Prop := k <> [] /\ ~ In "/"%char k.

(** The segments of a key path: the runs of characters between its
    slashes, in order and with the empty runs, so that joining them with
    slashes gives the path back. *)
Definition segments_of (s : str) (segs : list str) : Prop :=
  segs <> []
  /\ Forall (fun w => ~ In "/"%char w) segs
  /\ s = join_slash segs.

(** A segment that holds at least one character. *)
Definition not_empty (w : str) : bool := negb (Nat.eqb (length w) 0).

Definition is_inserted (e : event) : bool :=
  match e with
  | Inserted _ _ _ => true
  | _ => false
  end.

(** The calls of [driver.insert] for a list of items. *)
Definition inserted (skip_metadata : bool) (items : list (tuple * str))
  : list event :=
  map (fun kv => Inserted (fst kv) (snd kv) skip_metadata) items.


(** A store that rejects no insert. *)
Definition accepts_all (st : store) : Prop :=
  forall key path, rejects st key path = false.

(** The names of the named fields of a template, in order. *)
Definition named_fields (segs : list segment) : list str :=
  flat_map (fun seg =>
              match field_name seg with
              | Some (c :: n) => [c :: n]
              | _ => []
              end) segs.

(** What the candidates contribute to the catalog, in their order. *)
Definition matching (regex_pattern : str) (candidates : list str)
  : list (tuple * str) :=
  flat_map (fun c =>
              match match_of regex_pattern c with
              | Some m => [m]
              | None => []
              end) candidates.

End More.

(* ================================================================= *)
(** ** Templates within the reach of the pattern parser *)

Module Shape.

Import ClickUtils.

(** A field name without the character that ends a group name. *)
Definition no_gt (name : str) : bool :=
  forallb (fun c => negb (c =? ">")%char) name.

(** What follows a field cannot be read as further digits of a
    back-reference: the template ends, or literal text follows that does
    not start with a digit, or another field follows at once. *)
Definition follows_plain (rest : list segment) : bool :=
  match rest with
  | [] => true
  | seg :: _ =>
      match before_field seg with
      | c :: _ => negb (is_digit c)
      | [] =>
          match field_name seg with
          | Some _ => true
          | None => false
          end
      end
  end.

Fixpoint plain (segs : list segment) : bool :=
  match segs with
  | [] => true
  | seg :: rest =>
      match field_name seg with
      | Some (c :: n) => no_gt (c :: n) && follows_plain rest
      | _ => true
      end && plain rest
  end.

(** [w] is the template with the value [v name] in place of each field
    [name], and some text without a newline in place of each [{}]. *)
Inductive fills (v : str -> str) : list segment -> str -> Prop :=
| fills_nil : fills v [] []
| fills_literal : forall seg rest w,
    field_name seg = None -> fills v rest w ->
    fills v (seg :: rest) (before_field seg ++ w)
| fills_unnamed : forall seg rest u w,
    field_name seg = Some [] ->
    forallb (fun c => negb (c =? "010")%char) u = true ->
    fills v rest w ->
    fills v (seg :: rest) (before_field seg ++ u ++ w)
| fills_named : forall seg rest c n w,
    field_name seg = Some (c :: n) -> fills v rest w ->
    fills v (seg :: rest) (before_field seg ++ v (c :: n) ++ w).

(** The value that a key tuple gives to a key name. *)
Definition value_of (keys : list str) (t : tuple) (name : str) : str :=
  match index name keys with
  | Some i => nth i t []
  | None => []
  end.

End Shape.

(* ================================================================= *)
(** ** Further worked inputs *)

Module MoreExamples.

Import ClickUtils Ingest Examples.

(** No file yet at the output path. *)
Definition store_new : store := mk_store false [] [] (fun _ _ => false).

(** An existing, empty store for the key names [name] and [band]. *)
Definition store_pg : store :=
  mk_store true [lit "name"; lit "band"] [] (fun _ _ => false).





(** The store [store_pg], refusing the dataset [p], [green]. *)
Definition store_no_green : store :=
  mk_store true [lit "name"; lit "band"] []
    (fun key _ =>
       if tuple_eq_dec key [lit "p"; lit "green"] then true else false).

(** [/d/{a-b}.tif]. *)
Definition tmpl_hyphen : list segment :=
  [mk_segment (lit "/d/") (Some (lit "a-b")); mk_segment (lit ".tif") None].

(** [/{name}/{name}_{band}{}.tif] with the file [/a/a_red_x.tif]. *)
Definition tmpl_repeat : list segment :=
  [mk_segment (lit "/") (Some (lit "name"));
   mk_segment (lit "/") (Some (lit "name"));
   mk_segment (lit "_") (Some (lit "band"));
   mk_segment [] (Some []);
   mk_segment (lit ".tif") None].

Definition fs_repeat : filesystem :=
  fs_of [(lit "/*/*_**.tif", [lit "/a/a_red_x.tif"])] [].

End MoreExamples.

(* ================================================================= *)
(** * Properties *)

(* ----------------------------------------------------------------- *)
(** ** Dictionaries *)

Lemma dict_set_fresh : forall k v d,
  ~ In k (map fst d) -> dict_set k v d = d ++ [(k, v)].
Proof.
  induction d as [|[k' v'] d IH]; simpl; intros Hn; [reflexivity|].
  destruct (tuple_eq_dec k k') as [->|Hne].
  - exfalso; apply Hn; now left.
  - f_equal. apply IH. intros Hin; apply Hn; now right.
Qed.

Lemma dict_fold_nodup : forall items acc,
  NoDup (map fst (acc ++ items)) ->
  fold_left (fun d kv => dict_set (fst kv) (snd kv) d) items acc
  = acc ++ items.
Proof.
  induction items as [|[k v] items IH]; intros acc Hnd; simpl.
  - now rewrite app_nil_r.
  - rewrite dict_set_fresh.
    + rewrite IH; rewrite <- app_assoc; simpl; [reflexivity|exact Hnd].
    + rewrite map_app in Hnd; simpl in Hnd.
      apply NoDup_remove_2 in Hnd.
      intros Hin; apply Hnd, in_or_app; now left.
Qed.

Lemma dict_of_items_nodup : forall items,
  NoDup (map fst items) -> dict_of_items items = items.
Proof.
  intros items Hnd. unfold dict_of_items.
  now rewrite dict_fold_nodup.
Qed.

Lemma dict_set_keys : forall k v d,
  NoDup (map fst d) -> NoDup (map fst (dict_set k v d)).
Proof.
  induction d as [|[k' v'] d IH]; simpl; intros Hnd.
  - constructor; [intros [] | constructor].
  - destruct (tuple_eq_dec k k') as [->|Hne]; simpl; [exact Hnd|].
    inversion Hnd as [|? ? Hn Hd]; subst.
    constructor; [|now apply IH].
    clear IH Hd Hnd. induction d as [|[k2 v2] d IH]; simpl in *.
    + intros [E|[]]; congruence.
    + destruct (tuple_eq_dec k k2) as [->|Hne2]; simpl.
      * exact Hn.
      * intros [E|Hin]; [apply Hn; now left|].
        apply IH; [|exact Hin]. intros H; apply Hn; now right.
Qed.

Lemma dict_of_items_keys : forall items,
  NoDup (map fst (dict_of_items items)).
Proof.
  intros items. unfold dict_of_items.
  assert (H : forall acc, NoDup (map fst acc) ->
            NoDup (map fst (fold_left
              (fun d kv => dict_set (fst kv) (snd kv) d) items acc))).
  { induction items as [|kv items IH]; intros acc Hacc; simpl;
      [exact Hacc|]. apply IH. now apply dict_set_keys. }
  apply H. constructor.
Qed.

Lemma NoDup_map_filter : forall (A B : Type) (f : A -> B) (p : A -> bool) l,
  NoDup (map f l) -> NoDup (map f (filter p l)).
Proof.
  induction l as [|x l IH]; simpl; intros Hnd; [constructor|].
  inversion Hnd as [|? ? Hn Hd]; subst.
  destruct (p x); simpl; [constructor|]; auto.
  intros Hin. apply Hn. apply in_map_iff in Hin as (y & Hy & Hin).
  apply filter_In in Hin as [Hin _]. apply in_map_iff. eauto.
Qed.

Lemma dict_mem_true : forall k d,
  dict_mem k d = true <-> In k (map fst d).
Proof.
  intros k d. unfold dict_mem.
  destruct (in_dec tuple_eq_dec k (map fst d)); split; auto; discriminate.
Qed.

(* ----------------------------------------------------------------- *)
(** ** The ingestion filters *)

Section Filters.

Import Ingest.

Variable fs : filesystem.

Lemma filter_existing_eq : forall existing files,
  NoDup (map fst files) ->
  filter_existing existing files
  = filter (fun kv => negb (dict_mem (fst kv) existing)) files.
Proof.
  intros existing files Hnd. unfold filter_existing.
  apply dict_of_items_nodup. now apply NoDup_map_filter.
Qed.

Lemma newer_items_eq : forall cutoff items,
  Forall (fun kv => mtime fs (snd kv) <> None) items ->
  newer_items fs cutoff items = Ok (filter (newer_than fs cutoff) items).
Proof.
  induction items as [|[key path] items IH]; intros Hst; simpl;
    [reflexivity|].
  inversion Hst as [|? ? Hp Hrest]; subst; simpl in Hp.
  unfold newer_than at 1; simpl.
  destruct (mtime fs path) as [t|]; [|congruence].
  rewrite (IH Hrest); simpl. now destruct (cutoff <? t)%Z.
Qed.

Lemma filter_age_eq : forall cutoff files,
  NoDup (map fst files) ->
  Forall (fun kv => mtime fs (snd kv) <> None) files ->
  filter_age fs cutoff files = Ok (filter (newer_than fs cutoff) files).
Proof.
  intros cutoff files Hnd Hst. unfold filter_age.
  rewrite (newer_items_eq cutoff Hst); simpl.
  f_equal. apply dict_of_items_nodup. now apply NoDup_map_filter.
Qed.

Lemma filter_all : forall (A : Type) (p : A -> bool) l,
  (forall x, In x l -> p x = true) -> filter p l = l.
Proof.
  induction l as [|x l IH]; simpl; intros H; [reflexivity|].
  rewrite (H x (or_introl eq_refl)). f_equal. apply IH. auto.
Qed.

Lemma filter_none : forall (A : Type) (p : A -> bool) l,
  (forall x, In x l -> p x = false) -> filter p l = [].
Proof.
  induction l as [|x l IH]; simpl; intros H; [reflexivity|].
  rewrite (H x (or_introl eq_refl)). apply IH. auto.
Qed.

(** C7.  The existing-key filter keeps exactly the entries whose key tuple
    is not among the existing keys, in their order, and leaves the key names
    alone: with no existing key the catalog is returned as it is, and when
    every key tuple of the catalog exists the result has no entry. *)
Theorem existing_key_filter : forall (c : catalog) (existing : dict),
  NoDup (map fst (snd c)) ->
  skip_existing_stage [] c = c
  /\ ((forall k, In k (map fst (snd c)) -> In k (map fst existing)) ->
      skip_existing_stage existing c = (fst c, []))
  /\ snd (skip_existing_stage existing c)
     = filter (fun kv => negb (dict_mem (fst kv) existing)) (snd c)
  /\ (forall kv, In kv (snd (skip_existing_stage existing c)) <->
                 In kv (snd c) /\ ~ In (fst kv) (map fst existing))
  /\ fst (skip_existing_stage existing c) = fst c.
Proof.
  intros [keys files] existing Hnd; simpl in Hnd.
  unfold skip_existing_stage; simpl.
  rewrite !filter_existing_eq by exact Hnd.
  repeat split.
  - f_equal. apply filter_all. reflexivity.
  - intros Hall. f_equal. apply filter_none. intros kv Hin.
    apply negb_false_iff, dict_mem_true, Hall, in_map, Hin.
  - apply filter_In in H. tauto.
  - apply filter_In in H as [_ H]. apply negb_true_iff in H.
    intros Hin. apply dict_mem_true in Hin. congruence.
  - intros [Hin Hno]. apply filter_In. split; [exact Hin|].
    apply negb_true_iff. destruct (dict_mem (fst kv) existing) eqn:E;
      [|reflexivity].
    apply dict_mem_true in E. contradiction.
Qed.

(** C8.  The age filter keeps exactly the entries whose file was modified
    strictly after the cutoff: a cutoff before every modification time
    returns the files as they are, and a cutoff at or after every
    modification time returns none. *)
Theorem age_filter : forall (cutoff : Z) (c : catalog),
  NoDup (map fst (snd c)) ->
  Forall (fun kv => mtime fs (snd kv) <> None) (snd c) ->
  exists kept,
    filter_age fs cutoff (snd c) = Ok kept
    /\ kept = filter (newer_than fs cutoff) (snd c)
    /\ (forall kv, In kv kept <->
          In kv (snd c) /\
          exists t, mtime fs (snd kv) = Some t /\ (cutoff < t)%Z)
    /\ ((forall kv t, In kv (snd c) -> mtime fs (snd kv) = Some t ->
                      (cutoff < t)%Z) -> kept = snd c)
    /\ ((forall kv t, In kv (snd c) -> mtime fs (snd kv) = Some t ->
                      (t <= cutoff)%Z) -> kept = []).
Proof.
  intros cutoff [keys files] Hnd Hst; simpl in *.
  exists (filter (newer_than fs cutoff) files).
  split; [now apply filter_age_eq|]. split; [reflexivity|].
  split; [|split].
  - intros kv. rewrite filter_In. unfold newer_than.
    split; intros [Hin H]; (split; [exact Hin|]).
    + destruct (mtime fs (snd kv)) as [t|]; [|discriminate].
      exists t. split; [reflexivity|]. now apply Z.ltb_lt.
    + destruct H as (t & -> & Hlt). now apply Z.ltb_lt.
  - intros Hall. apply filter_all. intros kv Hin. unfold newer_than.
    destruct (mtime fs (snd kv)) as [t|] eqn:E.
    + apply Z.ltb_lt. eapply Hall; eauto.
    + rewrite Forall_forall in Hst. now apply Hst in Hin.
  - intros Hall. apply filter_none. intros kv Hin. unfold newer_than.
    destruct (mtime fs (snd kv)) as [t|] eqn:E; [|reflexivity].
    apply Z.ltb_ge. eapply Hall; eauto.
Qed.

End Filters.

(* ----------------------------------------------------------------- *)
(** ** Metadata key paths *)

Section KeyPaths.

Import Metadata More.

Lemma split_not_nil : forall sep s, split sep s <> [].
Proof.
  intros sep s. destruct s as [|c s]; simpl; [discriminate|].
  destruct (c =? sep)%char; [discriminate|].
  destruct (split sep s); discriminate.
Qed.

Lemma split_at_sep : forall sep a b,
  split sep (a ++ sep :: b) = split sep a ++ split sep b.
Proof.
  intros sep a b. induction a as [|c a IH]; simpl.
  - now rewrite Ascii.eqb_refl.
  - destruct (c =? sep)%char; [now rewrite IH|].
    rewrite IH. destruct (split sep a) as [|w ws] eqn:E.
    + now apply split_not_nil in E.
    + reflexivity.
Qed.

Lemma parsed_keys_at_slash : forall a b,
  parsed_keys (a ++ "/"%char :: b) = parsed_keys a ++ parsed_keys b.
Proof.
  intros a b. unfold parsed_keys. now rewrite split_at_sep, filter_app.
Qed.

Lemma split_segments : forall sep s,
  Forall (fun w => ~ In sep w) (split sep s).
Proof.
  intros sep s. induction s as [|c s IH]; simpl.
  - constructor; [intros []|constructor].
  - destruct (c =? sep)%char eqn:E.
    + constructor; [intros []|exact IH].
    + destruct (split sep s) as [|w ws].
      * constructor; [|constructor].
        intros [->|[]]. now rewrite Ascii.eqb_refl in E.
      * inversion IH; subst. constructor; [|assumption].
        intros [->|Hin]; [now rewrite Ascii.eqb_refl in E|contradiction].
Qed.

(** Every parsed key is a non-empty run without a slash. *)
Lemma parsed_keys_segments : forall s,
  Forall (fun k => k <> [] /\ ~ In "/"%char k) (parsed_keys s).
Proof.
  intros s. unfold parsed_keys. apply Forall_forall. intros k Hin.
  apply filter_In in Hin as [Hin Hne]. split.
  - now destruct k.
  - pose proof (split_segments "/"%char s) as H.
    rewrite Forall_forall in H. now apply H.
Qed.

Lemma split_plain : forall sep k, ~ In sep k -> split sep k = [k].
Proof.
  intros sep k. induction k as [|c k IH]; simpl; intros H; [reflexivity|].
  destruct (c =? sep)%char eqn:E.
  - apply Ascii.eqb_eq in E. elim H. now left.
  - rewrite IH; [reflexivity|]. intros Hin. apply H. now right.
Qed.

Lemma join_slash_cons : forall w w2 ws,
  join_slash (w :: w2 :: ws) = w ++ "/"%char :: join_slash (w2 :: ws).
Proof. reflexivity. Qed.

(** [str.split] undoes the join of runs that hold no separator. *)
Lemma split_join : forall segs,
  segs <> [] -> Forall (fun w => ~ In "/"%char w) segs ->
  split "/" (join_slash segs) = segs.
Proof.
  induction segs as [|w segs IH]; intros Hne Hall; [now elim Hne|].
  inversion Hall as [|? ? Hw Hws]; subst.
  destruct segs as [|w2 segs].
  - simpl. now apply split_plain.
  - rewrite join_slash_cons, split_at_sep, (@split_plain "/"%char w Hw).
    assert (Hn : w2 :: segs <> []) by discriminate.
    unfold str in *. now rewrite (IH Hn Hws).
Qed.

(** Every path has segments: the pieces [str.split] cuts it into. *)
Lemma join_split : forall s, join_slash (split "/" s) = s.
Proof.
  induction s as [|c s IH]; [reflexivity|]. simpl.
  destruct (c =? "/")%char eqn:E.
  - apply Ascii.eqb_eq in E. subst c.
    pose proof (split_not_nil "/"%char s) as Hn.
    destruct (split "/" s) as [|w ws]; [now elim Hn|].
    change (join_slash ([] :: w :: ws))
      with ("/"%char :: join_slash (w :: ws)).
    now rewrite IH.
  - destruct (split "/" s) as [|w ws] eqn:Es.
    + now apply split_not_nil in Es.
    + destruct ws as [|w2 ws]; simpl in *; now rewrite <- IH.
Qed.

Lemma filter_nonempty : forall segs,
  filter nonempty segs = filter not_empty segs.
Proof.
  intros segs. apply filter_ext. now intros [|c w].
Qed.

Lemma parsed_keys_same : forall s t,
  same_up_to_slashes s t -> parsed_keys s = parsed_keys t.
Proof.
  intros s t H. induction H.
  - reflexivity.
  - now symmetry.
  - now transitivity (parsed_keys t).
  - apply (parsed_keys_at_slash [] s).
  - rewrite parsed_keys_at_slash. apply app_nil_r.
  - rewrite !parsed_keys_at_slash. reflexivity.
Qed.

(** C10.  A key path is cut at its slashes and the empty segments are
    dropped: for a path with the segments [segs], the keys parsed are the
    non-empty ones among [segs], in order, and the handler is called with
    exactly these keys.  A path that differs only in leading, trailing or
    repeated slashes is parsed to the same keys, and its request calls the
    handler with the same keys, so the same dataset is addressed. *)
Theorem metadata_keys_ignore_extra_slashes : forall s t,
  same_up_to_slashes s t ->
  (exists segs, segments_of s segs)
  /\ parsed_keys s = parsed_keys t
  /\ forall segs, segments_of s segs ->
       parsed_keys s = filter not_empty segs
       /\ parsed_keys t = filter not_empty segs
       /\ forall (P R : Type) (metadata : list str -> P) (render : P -> R),
            get_metadata metadata render s
            = render (metadata (filter not_empty segs))
            /\ get_metadata metadata render t
               = render (metadata (filter not_empty segs)).
Proof.
  intros s t H.
  pose proof (@parsed_keys_same s t H) as E.
  split; [|split; [exact E|]].
  - exists (split "/" s). split; [apply split_not_nil|].
    split; [apply split_segments|]. symmetry. apply join_split.
  - intros segs (Hne & Hall & ->).
    assert (Es : parsed_keys (join_slash segs) = filter not_empty segs).
    { unfold parsed_keys. rewrite (@split_join segs Hne Hall).
      apply filter_nonempty. }
    split; [exact Es|]. split; [now rewrite <- E|].
    intros P R metadata render. unfold get_metadata.
    rewrite <- E, Es. split; reflexivity.
Qed.

End KeyPaths.

(* ----------------------------------------------------------------- *)
(** ** Reordering the keys *)

Section Reorder.

Import Ingest.

Lemma mem_true : forall x xs, mem x xs = true <-> In x xs.
Proof.
  intros x xs. unfold mem.
  destruct (in_dec str_eq_dec x xs); split; auto; discriminate.
Qed.

Lemma index_split : forall x xs i,
  index x xs = Some i ->
  exists l1 l2, xs = l1 ++ x :: l2 /\ ~ In x l1 /\ length l1 = i.
Proof.
  intros x xs. induction xs as [|y ys IH]; simpl; intros i H;
    [discriminate|].
  destruct (str_eq_dec x y) as [->|Hne].
  - injection H as <-. exists [], ys. simpl; auto.
  - destruct (index x ys) as [j|]; [|discriminate].
    injection H as <-. destruct (IH j eq_refl) as (l1 & l2 & -> & Hn & Hl).
    exists (y :: l1), l2. simpl. repeat split; [|now f_equal].
    intros [E|Hin]; [now apply Hne|contradiction].
Qed.

Lemma index_in : forall x xs, In x xs -> exists i, index x xs = Some i.
Proof.
  intros x xs. induction xs as [|y ys IH]; simpl; intros H; [contradiction|].
  destruct (str_eq_dec x y) as [->|Hne]; [now exists 0|].
  destruct H as [E|Hin]; [now elim Hne|].
  destruct (IH Hin) as [i ->]. now exists (S i).
Qed.

Lemma firstn_length_app : forall (A : Type) (a b : list A),
  firstn (length a) (a ++ b) = a.
Proof.
  induction a as [|x a IH]; intros b; simpl; [reflexivity|].
  now rewrite IH.
Qed.

Lemma skipn_length_app : forall (A : Type) (a b : list A),
  skipn (length a) (a ++ b) = b.
Proof. induction a as [|x a IH]; intros b; simpl; auto. Qed.

Lemma move_last_split : forall (A : Type) (t1 t2 : list A) x,
  move_last (length t1) (t1 ++ x :: t2) = t1 ++ t2 ++ [x].
Proof.
  intros A t1 t2 x. unfold move_last.
  rewrite firstn_length_app, skipn_length_app.
  change (S (length t1)) with (length (x :: t1)).
  replace (skipn (length (x :: t1)) (t1 ++ x :: t2)) with t2;
    [reflexivity|].
  simpl. clear. induction t1 as [|y t1 IH]; simpl; auto.
Qed.

Lemma push_to_last_split : forall (A : Type) (t1 t2 : list A) x,
  push_to_last (t1 ++ x :: t2) (length t1) = Ok (t1 ++ t2 ++ [x]).
Proof.
  intros A t1 t2 x. unfold push_to_last.
  rewrite nth_error_app2, Nat.sub_diag by lia; simpl.
  rewrite <- (move_last_split t1 t2 x). unfold move_last.
  now rewrite skipn_length_app.
Qed.

Lemma split_at : forall (A : Type) (i : nat) (t : list A),
  i < length t -> exists t1 x t2, t = t1 ++ x :: t2 /\ length t1 = i.
Proof.
  intros A i t Hlt.
  destruct (nth_error t i) as [x|] eqn:E.
  - apply nth_error_split in E as (t1 & t2 & -> & Hl). now exists t1, x, t2.
  - apply nth_error_None in E. lia.
Qed.

Lemma push_to_last_move : forall (A : Type) (i : nat) (t : list A),
  i < length t -> push_to_last t i = Ok (move_last i t).
Proof.
  intros A i t Hlt. destruct (split_at t Hlt) as (t1 & x & t2 & -> & <-).
  now rewrite push_to_last_split, move_last_split.
Qed.

Lemma app_eq_length : forall (A : Type) (a a' b b' : list A),
  length a = length a' -> a ++ b = a' ++ b' -> a = a' /\ b = b'.
Proof.
  induction a as [|x a IH]; intros [|x' a'] b b' Hl H; simpl in *;
    try discriminate; [auto|].
  injection H as -> H. injection Hl as Hl.
  destruct (IH a' b b' Hl H) as [-> ->]. auto.
Qed.

Lemma move_last_inj : forall (A : Type) (i : nat) (t t' : list A),
  i < length t -> length t = length t' ->
  move_last i t = move_last i t' -> t = t'.
Proof.
  intros A i t t' Hlt Hlen H.
  destruct (split_at t Hlt) as (t1 & x & t2 & -> & Hl1).
  assert (Hlt' : i < length t') by lia.
  destruct (split_at t' Hlt') as (u1 & y & u2 & -> & Hl2).
  subst i. rewrite move_last_split in H.
  rewrite <- Hl2, move_last_split in H.
  rewrite !app_assoc in H. apply app_inj_tail in H as [H ->].
  apply app_eq_length in H as [-> ->]; auto.
Qed.

Lemma move_last_length : forall (A : Type) (i : nat) (t : list A),
  i < length t -> length (move_last i t) = length t.
Proof.
  intros A i t Hlt. destruct (split_at t Hlt) as (t1 & x & t2 & -> & <-).
  rewrite move_last_split. rewrite !length_app; simpl. lia.
Qed.

Lemma map_outcome_ok : forall (A B : Type) (f : A -> outcome B) (g : A -> B)
    (xs : list A),
  (forall x, In x xs -> f x = Ok (g x)) -> map_outcome f xs = Ok (map g xs).
Proof.
  induction xs as [|x xs IH]; simpl; intros H; [reflexivity|].
  rewrite (H x (or_introl eq_refl)); simpl.
  rewrite IH by auto. reflexivity.
Qed.

(** Reordering keeps the catalog invariant. *)
Lemma moved_catalog_wf : forall (keys : list str) (files : dict) (i : nat),
  wf_catalog (keys, files) -> i < length keys ->
  wf_catalog (move_last i keys,
              map (fun kv => (move_last i (fst kv), snd kv)) files).
Proof.
  intros keys files i [Hnd Hlen] Hi; simpl in *.
  rewrite Forall_forall in Hlen. split; cbn [fst snd].
  - assert (E : map fst (map (fun kv : list str * str =>
                               (move_last i (fst kv), snd kv)) files)
                = map (move_last i) (map fst files))
      by (rewrite !map_map; reflexivity).
    rewrite E. clear E.
    apply NoDup_map_NoDup_ForallPairs; [|exact Hnd].
    intros t t' Ht Ht' E.
    apply in_map_iff in Ht as (kv & <- & Hkv).
    apply in_map_iff in Ht' as (kv' & <- & Hkv').
    apply (@move_last_inj _ i);
      [rewrite (Hlen _ Hkv); exact Hi
      |now rewrite (Hlen _ Hkv), (Hlen _ Hkv')
      |exact E].
  - apply Forall_forall. intros kv' Hin.
    apply in_map_iff in Hin as (kv & <- & Hkv); simpl.
    rewrite !move_last_length; rewrite ?(Hlen _ Hkv); auto.
Qed.

(** C6.  Promoting a key name [k] of a catalog moves the first [k] of the
    key names to the end and moves the value at the same position of every
    key tuple to the end of that tuple; the paths, their order and the
    number of entries stay, and so does the catalog invariant.  A key name
    that the catalog does not have is refused. *)
Theorem reorder_moves_key_last : forall (c : catalog) (k : str),
  wf_catalog c ->
  (In k (fst c) ->
   exists l1 l2,
     fst c = l1 ++ k :: l2 /\ ~ In k l1 /\
     let c' := (l1 ++ l2 ++ [k],
                map (fun kv => (move_last (length l1) (fst kv), snd kv))
                    (snd c)) in
     reorder k c = Ok c'
     /\ (forall (t1 t2 : tuple) (x : str),
           length t1 = length l1 ->
           move_last (length l1) (t1 ++ x :: t2) = t1 ++ t2 ++ [x])
     /\ map snd (snd c') = map snd (snd c)
     /\ length (snd c') = length (snd c)
     /\ wf_catalog c')
  /\ (~ In k (fst c) -> reorder k c = Raised (BadParameter msg_rgb_key)).
Proof.
  intros [keys files] k Hwf; simpl. split.
  - intros Hin.
    destruct (index_in k keys Hin) as [i Hi].
    destruct (index_split k keys Hi) as (l1 & l2 & -> & Hn & <-).
    exists l1, l2. split; [reflexivity|]. split; [exact Hn|].
    assert (Hlt : length l1 < length (l1 ++ k :: l2))
      by (rewrite length_app; simpl; lia).
    pose proof (moved_catalog_wf Hwf Hlt) as Hwf'.
    rewrite move_last_split in Hwf'.
    cbv zeta. split; [|split; [|split; [|split]]].
    + unfold reorder.
      rewrite (proj2 (mem_true k _) Hin); simpl. rewrite Hi.
      rewrite push_to_last_split; simpl.
      rewrite (map_outcome_ok _
                 (fun kv => (move_last (length l1) (fst kv), snd kv))).
      * simpl. f_equal. f_equal. apply dict_of_items_nodup, Hwf'.
      * intros kv Hkv. destruct Hwf as [_ Hlen]; simpl in Hlen.
        rewrite Forall_forall in Hlen.
        rewrite push_to_last_move; [reflexivity|].
        rewrite (Hlen _ Hkv). exact Hlt.
    + intros t1 t2 x <-. apply move_last_split.
    + simpl. rewrite map_map; simpl. reflexivity.
    + simpl. apply length_map.
    + exact Hwf'.
  - intros Hn. unfold reorder.
    destruct (mem k keys) eqn:E; [|reflexivity].
    apply mem_true in E. contradiction.
Qed.

End Reorder.

(* ----------------------------------------------------------------- *)
(** ** Matching candidates *)

Section Matching.

Import ClickUtils.

Lemma rmatch_settled : forall pattern c,
  (PyRe.rmatch pattern c = PyRe.NoMatch \/
   exists g w, PyRe.rmatch pattern c = PyRe.Match g w) ->
  forall c',
    PyRe.rmatch pattern c' = PyRe.NoMatch \/
    exists g w, PyRe.rmatch pattern c' = PyRe.Match g w.
Proof.
  intros pattern c H c'. unfold PyRe.rmatch in *.
  destruct (PyRe.compile pattern) as [n nodes| |].
  - destruct (PyRe.m_list nodes _ _ c') as [[cs r]|]; eauto.
  - destruct H as [H|(g & w & H)]; discriminate.
  - destruct H as [H|(g & w & H)]; discriminate.
Qed.

Lemma match_candidates_settled : forall pattern candidates,
  (forall c, In c candidates ->
     PyRe.rmatch pattern c = PyRe.NoMatch \/
     exists g w, PyRe.rmatch pattern c = PyRe.Match g w) ->
  match_candidates pattern candidates
  = Ok (map (match_of pattern) candidates).
Proof.
  induction candidates as [|c cs IH]; intros H; simpl; [reflexivity|].
  unfold match_of at 1.
  destruct (H c (or_introl eq_refl)) as [E|(g & w & E)]; rewrite E;
    rewrite IH by (intros; apply H; now right); reflexivity.
Qed.

Lemma matches_app : forall a b, matches (a ++ b) = matches a ++ matches b.
Proof.
  induction a as [|[m|] a IH]; intros b; simpl; [reflexivity| |];
    now rewrite IH.
Qed.

Lemma nodup_length_le : forall l : list (list str),
  length (nodup tuple_eq_dec l) <= length l.
Proof.
  induction l as [|x l IH]; simpl; [lia|].
  destruct (in_dec tuple_eq_dec x l); simpl; lia.
Qed.

Lemma count_distinct_full : forall l : list (list str),
  length l = count_distinct l <-> NoDup l.
Proof.
  unfold count_distinct. induction l as [|x l IH]; simpl.
  - split; [constructor|reflexivity].
  - pose proof (nodup_length_le l) as Hle.
    destruct (in_dec tuple_eq_dec x l) as [Hin|Hn]; simpl.
    + split; [lia|]. intros Hnd. inversion Hnd; contradiction.
    + split.
      * intros E. constructor; [exact Hn|]. apply IH. lia.
      * intros Hnd. inversion Hnd; subst. f_equal. now apply IH.
Qed.

(** C3, as the code has it.  When no candidate matches the pattern, the
    converter fails with the message that the pattern matches no files; it
    does so in particular when the glob lists nothing, so the two causes
    give one and the same error. *)
Theorem no_match_is_no_files : forall (fs : filesystem) (segs : list segment),
  keys (scan segs) <> [] ->
  forallb PyRe.match_w (keys (scan segs)) = true ->
  (forall c,
     In c (map (realpath fs) (glob fs (glob_pattern (scan segs)))) ->
     PyRe.rmatch (regex_pattern (scan segs)) c = PyRe.NoMatch) ->
  convert fs segs = Raised (BadParameter msg_no_files)
  /\ forall fs0 : filesystem,
       glob fs0 (glob_pattern (scan segs)) = [] ->
       convert fs0 segs = convert fs segs.
Proof.
  intros fs segs Hk Hw Hno.
  assert (G : forall fs' : filesystem,
            (forall c,
               In c (map (realpath fs')
                         (glob fs' (glob_pattern (scan segs)))) ->
               PyRe.rmatch (regex_pattern (scan segs)) c = PyRe.NoMatch) ->
            convert fs' segs = Raised (BadParameter msg_no_files)).
  { intros fs' H. unfold convert.
    destruct (keys (scan segs)) as [|k ks] eqn:Ek; [now elim Hk|].
    rewrite Hw; simpl.
    rewrite match_candidates_settled by (intros c Hc; left; now apply H).
    simpl.
    replace (existsb is_some _) with false; [reflexivity|].
    symmetry. apply not_true_is_false. intros Hex.
    apply existsb_exists in Hex as (m & Hm & Hs).
    apply in_map_iff in Hm as (c & <- & Hc).
    unfold match_of in Hs. now rewrite (H c Hc) in Hs. }
  split; [now apply G|].
  intros fs0 H0. rewrite (G fs Hno). apply G.
  rewrite H0. intros c [].
Qed.

(** C5.  When two entries of the candidate list match with the same key
    tuple, the converter returns no catalog, and for a template that
    compiles it fails with the duplicate-key error. *)
Theorem duplicate_keys_rejected :
  forall (fs : filesystem) (segs : list segment)
         (l1 l2 l3 : list str) (c1 c2 : str) (g : tuple) (w1 w2 : str),
  map (realpath fs) (glob fs (glob_pattern (scan segs)))
  = l1 ++ c1 :: l2 ++ c2 :: l3 ->
  PyRe.rmatch (regex_pattern (scan segs)) c1 = PyRe.Match g w1 ->
  PyRe.rmatch (regex_pattern (scan segs)) c2 = PyRe.Match g w2 ->
  (forall cat, convert fs segs <> Ok cat)
  /\ (keys (scan segs) <> [] ->
      forallb PyRe.match_w (keys (scan segs)) = true ->
      convert fs segs = Raised (BadParameter msg_duplicate)).
Proof.
  intros fs segs l1 l2 l3 c1 c2 g w1 w2 Hc H1 H2.
  assert (G : keys (scan segs) <> [] ->
              forallb PyRe.match_w (keys (scan segs)) = true ->
              convert fs segs = Raised (BadParameter msg_duplicate)).
  { intros Hk Hw. unfold convert.
    destruct (keys (scan segs)) as [|k ks] eqn:Ek; [now elim Hk|].
    rewrite Hw; simpl.
    rewrite match_candidates_settled
      by (intros c _; apply (@rmatch_settled _ c1); eauto).
    simpl. rewrite Hc.
    assert (M1 : match_of (regex_pattern (scan segs)) c1 = Some (g, w1))
      by (unfold match_of; now rewrite H1).
    assert (M2 : match_of (regex_pattern (scan segs)) c2 = Some (g, w2))
      by (unfold match_of; now rewrite H2).
    rewrite !map_app; simpl. rewrite !map_app; simpl. rewrite M1, M2.
    replace (existsb is_some _) with true
      by (symmetry; apply existsb_exists; exists (Some (g, w1));
          split; [apply in_or_app; right; now left|reflexivity]).
    simpl.
    rewrite !matches_app; simpl. rewrite !matches_app; simpl.
    match goal with
    | |- context [length ?l =? count_distinct ?l] =>
        destruct (length l =? count_distinct l) eqn:E
    end; [|reflexivity].
    exfalso. apply Nat.eqb_eq, count_distinct_full in E.
    repeat (rewrite map_app in E; simpl in E).
    apply NoDup_remove_2 in E. apply E.
    apply in_or_app; right. apply in_or_app; right. now left. }
  split; [|exact G].
  intros cat Hcat.
  assert (Dk : keys (scan segs) = [] \/ keys (scan segs) <> [])
    by (destruct (keys (scan segs)); [now left|right; discriminate]).
  destruct Dk as [Ek|Hk].
  - unfold convert in Hcat. rewrite Ek in Hcat. discriminate.
  - destruct (forallb PyRe.match_w (keys (scan segs))) eqn:Ew.
    + rewrite (G Hk eq_refl) in Hcat. discriminate.
    + unfold convert in Hcat. rewrite Ew in Hcat.
      destruct (keys (scan segs)); discriminate.
Qed.

End Matching.

(* ----------------------------------------------------------------- *)
(** ** The converter and the ingestion on the worked inputs *)

Section Worked.

Import ClickUtils Ingest Examples.

(** C2, at [/d/{a_b}.tif] with the file [/d/x.tif].  The key name [a_b] is
    not alphanumeric, yet the converter raises no error: the check reads
    the first character of a key name only, and takes an underscore for a
    word character.  The catalog it returns has the key name [a_b]. *)
Theorem underscore_key_name_accepted :
  forallb is_alnum (lit "a_b") = false
  /\ keys (scan tmpl_underscore) = [lit "a_b"]
  /\ forallb PyRe.match_w (keys (scan tmpl_underscore)) = true
  /\ convert fs_one_file tmpl_underscore
     = Ok ([lit "a_b"], [([lit "x"], lit "/d/x.tif")]).
Proof. repeat split; vm_compute; reflexivity. Qed.

(** C9, at [/d/{a>(b)}.tif] with the file [/d/b>x.tif].  The key name
    passes the check on its first character and puts a second group into
    the pattern, [/d/(?P<a>(b)>[^\W_]+)\.tif]: the catalog returned has one
    key name and a key tuple of two values. *)
Theorem group_in_key_name_breaks_invariant :
  regex_pattern (scan tmpl_group_in_name)
  = lit "/d/(?P<a>(b)>[^\W_]+)\.tif"
  /\ convert fs_group_in_name tmpl_group_in_name
     = Ok ([lit "a>(b)"], [([lit "b>x"; lit "b"], lit "/d/b>x.tif")])
  /\ ~ wf_catalog ([lit "a>(b)"], [([lit "b>x"; lit "b"], lit "/d/b>x.tif")]).
Proof.
  split; [vm_compute; reflexivity|]. split; [vm_compute; reflexivity|].
  intros [_ H]. inversion H as [|? ? Hlen _]; subst.
  simpl in Hlen. discriminate.
Qed.

(** C3 fails as stated: for [/d/{name}.tif], an empty directory and a
    directory whose only file [/d/x-y.tif] does not match the pattern give
    the same outcome. *)
Lemma no_files_and_no_match_coincide :
  glob fs_no_files (glob_pattern (scan tmpl_name)) = []
  /\ glob fs_no_match (glob_pattern (scan tmpl_name)) = [lit "/d/x-y.tif"]
  /\ PyRe.rmatch (regex_pattern (scan tmpl_name)) (lit "/d/x-y.tif")
     = PyRe.NoMatch
  /\ ~ (convert fs_no_files tmpl_name <> convert fs_no_match tmpl_name).
Proof.
  repeat split; try (vm_compute; reflexivity).
  intros H. apply H. vm_compute. reflexivity.
Qed.

Lemma no_match_is_no_files_witness :
  convert fs_no_match tmpl_name = Raised (BadParameter msg_no_files)
  /\ convert fs_no_files tmpl_name = convert fs_no_match tmpl_name.
Proof.
  assert (H := @no_match_is_no_files fs_no_match tmpl_name).
  destruct H as [H1 H2].
  - vm_compute. discriminate.
  - vm_compute. reflexivity.
  - intros c Hc. vm_compute in Hc. destruct Hc as [<-|[]].
    vm_compute. reflexivity.
  - split; [exact H1|]. apply H2. vm_compute. reflexivity.
Defined.

Lemma duplicate_keys_rejected_witness :
  convert fs_bands tmpl_bands = Raised (BadParameter msg_duplicate).
Proof.
  apply (@duplicate_keys_rejected fs_bands tmpl_bands [] [] []
           (lit "/a/2020_red_x.tif") (lit "/a/2020_red_y.tif")
           [lit "a"; lit "2020"; lit "red"]
           (lit "/a/2020_red_x.tif") (lit "/a/2020_red_y.tif")).
  - vm_compute. reflexivity.
  - vm_compute. reflexivity.
  - vm_compute. reflexivity.
  - vm_compute. discriminate.
  - vm_compute. reflexivity.
Defined.

(** C1, at a store that exists with key names [b] and a catalog with key
    names [a].  The message is written, and the run goes on: the entry is
    inserted and the run returns normally. *)
Theorem incompatible_key_names_still_ingested :
  let r := ingest fs_no_files 0 cat_a store_b false None false None in
  is_file store_b = true
  /\ key_names store_b <> fst cat_a
  /\ result r = Ok tt
  /\ trace r = [EchoIncompatible;
                Inserted [lit "x"] (lit "/d/x.tif") false;
                ClearCache]
  /\ datasets (final r) = [([lit "x"], lit "/d/x.tif")].
Proof.
  cbv zeta. repeat split; try (vm_compute; reflexivity).
  vm_compute. discriminate.
Qed.

Lemma wf_cat_pg : wf_catalog cat_pg.
Proof.
  split; simpl.
  - constructor; [intros [E|[]]; discriminate|].
    constructor; [intros []|constructor].
  - repeat constructor.
Defined.

Lemma reorder_moves_key_last_witness :
  reorder (lit "name") cat_pg
  = Ok ([lit "band"; lit "name"],
        [([lit "red"; lit "p"], lit "/p/red.tif");
         ([lit "green"; lit "p"], lit "/p/green.tif")])
  /\ reorder (lit "band") cat_pg = Ok cat_pg
  /\ reorder (lit "date") cat_pg = Raised (BadParameter msg_rgb_key).
Proof.
  split; [|split].
  - destruct (proj1 (reorder_moves_key_last (lit "name") wf_cat_pg))
      as (l1 & l2 & Hk & Hn & E & _).
    + simpl. now left.
    + destruct l1 as [|a l1]; simpl in Hk.
      * injection Hk as <-. exact E.
      * injection Hk as <- _. elim Hn. now left.
  - vm_compute. reflexivity.
  - apply (proj2 (reorder_moves_key_last (lit "date") wf_cat_pg)).
    simpl. intros [E|[E|[]]]; discriminate.
Defined.

Lemma existing_key_filter_witness :
  skip_existing_stage [] cat_pg = cat_pg
  /\ skip_existing_stage (snd cat_pg) cat_pg = (fst cat_pg, []).
Proof.
  destruct (@existing_key_filter cat_pg (snd cat_pg) (proj1 wf_cat_pg))
    as (H0 & Hall & _).
  split; [exact H0|]. apply Hall. auto.
Defined.

Lemma age_filter_witness :
  filter_age fs_pg 50 (snd cat_pg) = Ok (snd cat_pg)
  /\ filter_age fs_pg 100 (snd cat_pg)
     = Ok [([lit "p"; lit "green"], lit "/p/green.tif")]
  /\ filter_age fs_pg 200 (snd cat_pg) = Ok [].
Proof.
  assert (Hst : Forall (fun kv => mtime fs_pg (snd kv) <> None) (snd cat_pg))
    by (repeat constructor; vm_compute; discriminate).
  split; [|split].
  - destruct (@age_filter fs_pg 50 cat_pg (proj1 wf_cat_pg) Hst)
      as (kept & -> & -> & _). vm_compute. reflexivity.
  - destruct (@age_filter fs_pg 100 cat_pg (proj1 wf_cat_pg) Hst)
      as (kept & -> & -> & _). vm_compute. reflexivity.
  - destruct (@age_filter fs_pg 200 cat_pg (proj1 wf_cat_pg) Hst)
      as (kept & -> & -> & _). vm_compute. reflexivity.
Defined.

Lemma metadata_keys_ignore_extra_slashes_witness :
  Metadata.parsed_keys (lit "a//b/") = [lit "a"; lit "b"]
  /\ Metadata.parsed_keys (lit "a/b") = [lit "a"; lit "b"]
  /\ Metadata.get_metadata (fun ks => ks) (fun payload => payload)
       (lit "a//b/")
     = [lit "a"; lit "b"]
  /\ Metadata.get_metadata (fun ks => ks) (fun payload => payload)
       (lit "a/b")
     = [lit "a"; lit "b"].
Proof.
  assert (H : same_up_to_slashes (lit "a//b/") (lit "a/b")).
  { apply sus_trans with (t := lit "a//b").
    - exact (sus_trailing (lit "a//b")).
    - exact (sus_repeated (lit "a") (lit "b")). }
  destruct (@metadata_keys_ignore_extra_slashes (lit "a//b/") (lit "a/b") H)
    as (_ & _ & Hsegs).
  destruct (Hsegs [lit "a"; []; lit "b"; []]) as (E1 & E2 & E3).
  - split; [discriminate|]. split; [|reflexivity].
    repeat constructor; simpl; intuition discriminate.
  - destruct (E3 _ _ (fun ks : list str => ks)
                (fun payload : list str => payload)) as (E4 & E5).
    exact (conj E1 (conj E2 (conj E4 E5))).
Defined.

End Worked.

(* ----------------------------------------------------------------- *)
(** ** Parsing the emitted pattern *)

Section EmittedPattern.

Import ClickUtils Template PyRe.

Lemma digit_is_alnum : forall c, is_digit c = true -> is_alnum c = true.
Proof. intros c H. unfold is_alnum. now rewrite H. Qed.

Lemma octal_is_digit : forall c, is_octal c = true -> is_digit c = true.
Proof.
  intros c. unfold is_octal, is_digit, between.
  rewrite !andb_true_iff, !Nat.leb_le. lia.
Qed.

Lemma escape_special_cases : forall c,
  escape_special c = true ->
  is_digit c = false /\ is_ascii_letter c = false.
Proof.
  intros c H. unfold escape_special in H.
  apply existsb_exists in H as (d & Hd & E).
  apply Ascii.eqb_eq in E. subst d. simpl in Hd.
  repeat (destruct Hd as [<-|Hd]; [split; reflexivity|]).
  contradiction.
Qed.

Lemma parser_special_escaped : forall c,
  parser_special c = true -> escape_special c = true.
Proof.
  intros c H. unfold parser_special in H.
  apply existsb_exists in H as (d & Hd & E).
  apply Ascii.eqb_eq in E. subst d. simpl in Hd.
  repeat (destruct Hd as [<-|Hd]; [reflexivity|]).
  contradiction.
Qed.

Lemma not_escape_special : forall c d,
  escape_special c = false -> escape_special d = true -> (c =? d)%char = false.
Proof.
  intros c d Hc Hd. destruct (c =? d)%char eqn:E; [|reflexivity].
  apply Ascii.eqb_eq in E. congruence.
Qed.

Lemma parse_plain : forall c r st,
  escape_special c = false ->
  parse (c :: r) None st = parse r None (push (NChar c) st).
Proof.
  intros c r st Hc. simpl.
  rewrite (@not_escape_special c "\" Hc eq_refl).
  rewrite (@not_escape_special c "." Hc eq_refl).
  rewrite (@not_escape_special c "[" Hc eq_refl).
  rewrite (@not_escape_special c "(" Hc eq_refl).
  rewrite (@not_escape_special c ")" Hc eq_refl).
  destruct (parser_special c) eqn:E; [|reflexivity].
  apply parser_special_escaped in E. congruence.
Qed.

Lemma parse_escaped : forall c r st,
  escape_special c = true ->
  parse ("\"%char :: c :: r) None st = parse r None (push (NChar c) st).
Proof.
  intros c r st Hc. destruct (escape_special_cases c Hc) as [Hd Hl].
  simpl. now rewrite Hd, Hl.
Qed.

Lemma parse_escape : forall l r fr cu n nm,
  parse (escape l ++ r) None (mk_pstate fr cu n nm)
  = parse r None (mk_pstate fr (rev (map NChar l) ++ cu) n nm).
Proof.
  induction l as [|c l IH]; intros r fr cu n nm; [reflexivity|].
  unfold escape; simpl. fold (escape l). unfold escape_char.
  rewrite <- app_assoc.
  destruct (escape_special c) eqn:E.
  - simpl app. rewrite (@parse_escaped c _ _ E). unfold push; simpl.
    rewrite IH. now rewrite <- app_assoc.
  - simpl app. rewrite (@parse_plain c _ _ E). unfold push; simpl.
    rewrite IH. now rewrite <- app_assoc.
Qed.


Lemma id_continue_not_gt : forall c,
  is_id_continue c = true -> (c =? ">")%char = false.
Proof.
  intros c H. destruct (c =? ">")%char eqn:E; [|reflexivity].
  apply Ascii.eqb_eq in E. subst c. discriminate.
Qed.

Lemma identifier_no_gt : forall name c,
  is_identifier name = true -> In c name -> (c =? ">")%char = false.
Proof.
  intros [|a name] c H Hin; [discriminate|]. simpl in H.
  apply andb_true_iff in H as [Ha Hn]. apply id_continue_not_gt.
  destruct Hin as [<-|Hin].
  - unfold is_id_continue. now rewrite Ha.
  - rewrite forallb_forall in Hn. now apply Hn.
Qed.

Lemma parse_name : forall name acc r st,
  (forall c, In c name -> (c =? ">")%char = false) ->
  parse (name ++ ">"%char :: r) (Some acc) st
  = parse (">"%char :: r) (Some (rev name ++ acc)) st.
Proof.
  induction name as [|c name IH]; intros acc r st H; [reflexivity|].
  simpl app. cbn [parse]. rewrite (H c (or_introl eq_refl)).
  rewrite IH by (intros; apply H; now right).
  simpl rev. now rewrite <- app_assoc.
Qed.

Lemma parse_group : forall name r cu n nm,
  is_identifier name = true -> mem name nm = false ->
  parse (lit "(?P<" ++ name ++ lit ">[^\W_]+)" ++ r) None
        (mk_pstate [] cu n nm)
  = parse r None
      (mk_pstate [] (NGroup (S n) [NAlnumPlus] :: cu) (S n) (name :: nm)).
Proof.
  intros name r cu n nm Hid Hmem.
  change (lit "(?P<" ++ name ++ lit ">[^\W_]+)" ++ r)
    with ("("%char :: "?"%char :: "P"%char :: "<"%char
          :: (name ++ lit ">[^\W_]+)" ++ r)).
  cbn [parse Ascii.eqb Bool.eqb andb].
  change (lit ">[^\W_]+)" ++ r) with (">"%char :: lit "[^\W_]+)" ++ r).
  rewrite parse_name by (intros; now apply (identifier_no_gt name)).
  cbn [parse Ascii.eqb Bool.eqb andb].
  rewrite app_nil_r, rev_involutive. cbn [names]. rewrite Hid, Hmem.
  reflexivity.
Qed.

Lemma two_digits_below_100 : forall g, 1 <= g < 100 -> two_digits g = true.
Proof.
  intros g Hg.
  assert (H : forallb two_digits (seq 1 99) = true)
    by (vm_compute; reflexivity).
  rewrite forallb_forall in H. apply H. apply in_seq. lia.
Qed.

Lemma backref_ok_top : forall g cu n nm,
  1 <= g <= n -> backref_ok g (mk_pstate [] cu n nm) = true.
Proof.
  intros g cu n nm [H1 H2]. unfold backref_ok.
  cbn [frames ngroups map existsb negb].
  apply Nat.leb_le in H1, H2. now rewrite H1, H2.
Qed.

Lemma parse_backref : forall g r cu n nm,
  two_digits g = true -> 1 <= g <= n -> no_digit_head r = true ->
  parse (lit "\" ++ str_of_nat g ++ r) None (mk_pstate [] cu n nm)
  = parse r None (mk_pstate [] (NBackref g :: cu) n nm).
Proof.
  intros g r cu n nm H2 Hg Hr.
  pose proof (backref_ok_top cu nm Hg) as Hok.
  unfold two_digits in H2.
  destruct (str_of_nat g) as [|d1 [|d2 [|d3 ds]]]; try discriminate.
  - apply andb_true_iff in H2 as [H2 Hv].
    apply andb_true_iff in H2 as [Hd H0].
    apply Nat.eqb_eq in Hv. apply negb_true_iff in H0.
    change (lit "\" ++ [d1] ++ r) with ("\"%char :: d1 :: r).
    cbn [parse Ascii.eqb Bool.eqb andb]. rewrite Hd, H0, Hv, Hok.
    destruct r as [|d2 r]; [reflexivity|].
    simpl in Hr. apply negb_true_iff in Hr. now rewrite Hr.
  - apply andb_true_iff in H2 as [H2 Hv].
    apply andb_true_iff in H2 as [H2 Hd2].
    apply andb_true_iff in H2 as [Hd H0].
    apply Nat.eqb_eq in Hv. apply negb_true_iff in H0.
    change (lit "\" ++ [d1; d2] ++ r) with ("\"%char :: d1 :: d2 :: r).
    cbn [parse Ascii.eqb Bool.eqb andb]. rewrite Hd, H0, Hd2, Hv, Hok.
    destruct r as [|d3 r]; [reflexivity|].
    simpl in Hr. apply negb_true_iff in Hr.
    destruct (is_octal d3) eqn:E3;
      [apply octal_is_digit in E3; congruence|].
    now rewrite !andb_false_r.
Qed.


Lemma index_none : forall x xs, index x xs = None -> ~ In x xs.
Proof.
  intros x xs. induction xs as [|y ys IH]; simpl; intros H; [tauto|].
  destruct (str_eq_dec x y) as [->|Hne]; [discriminate|].
  destruct (index x ys); [discriminate|].
  intros [E|Hin]; [now apply Hne|now apply IH].
Qed.

Lemma index_bound : forall x xs i, index x xs = Some i -> i < length xs.
Proof.
  intros x xs. induction xs as [|y ys IH]; simpl; intros i H;
    [discriminate|].
  destruct (str_eq_dec x y); [injection H as <-; lia|].
  destruct (index x ys) as [j|]; [|discriminate].
  injection H as <-. specialize (IH j eq_refl). lia.
Qed.

Lemma step_keys_length : forall ks seg,
  length ks <= length (step_keys ks seg).
Proof.
  intros ks seg. unfold step_keys.
  destruct (field_name seg) as [[|c n]|]; try lia.
  destruct (index (c :: n) ks); [lia|]. rewrite length_app. lia.
Qed.

Lemma keys_from_length : forall segs ks,
  length ks <= length (keys_from ks segs).
Proof.
  induction segs as [|seg rest IH]; intros ks; simpl; [lia|].
  pose proof (step_keys_length ks seg). specialize (IH (step_keys ks seg)).
  lia.
Qed.

Lemma scan_step_keys : forall p seg,
  keys (scan_step p seg) = step_keys (keys p) seg.
Proof.
  intros p seg. unfold scan_step, step_keys.
  destruct (field_name seg) as [[|c n]|]; try reflexivity.
  destruct (index (c :: n) (keys p)); reflexivity.
Qed.

Lemma scan_step_regex : forall p seg,
  regex_pattern (scan_step p seg)
  = regex_pattern p ++ step_regex (keys p) seg.
Proof.
  intros p seg. unfold scan_step, step_regex.
  destruct (field_name seg) as [[|c n]|]; cbn [regex_pattern].
  - now rewrite <- app_assoc.
  - destruct (index (c :: n) (keys p)); cbn [regex_pattern];
      now rewrite <- app_assoc.
  - now rewrite app_nil_r.
Qed.

Lemma scan_from : forall segs p,
  keys (fold_left scan_step segs p) = keys_from (keys p) segs
  /\ regex_pattern (fold_left scan_step segs p)
     = regex_pattern p ++ regex_from (keys p) segs.
Proof.
  induction segs as [|seg rest IH]; intros p; simpl.
  - now rewrite app_nil_r.
  - destruct (IH (scan_step p seg)) as [Hk Hr].
    rewrite Hk, Hr, scan_step_keys, scan_step_regex.
    now rewrite <- app_assoc.
Qed.

Lemma scan_keys : forall segs, keys (scan segs) = keys_from [] segs.
Proof. intros segs. apply (scan_from segs (mk_patterns [] [] [])). Qed.

Lemma scan_regex : forall segs, regex_pattern (scan segs) = regex_from [] segs.
Proof. intros segs. apply (scan_from segs (mk_patterns [] [] [])). Qed.

Lemma escape_head : forall l,
  no_alnum_head l = true -> l <> [] -> forall r,
  no_digit_head (escape l ++ r) = true.
Proof.
  intros [|c l] H Hne r; [now elim Hne|]. simpl in H.
  unfold escape; simpl. unfold escape_char.
  destruct (escape_special c); simpl; [reflexivity|].
  apply negb_true_iff. apply negb_true_iff in H.
  destruct (is_digit c) eqn:E; [|reflexivity].
  apply digit_is_alnum in E. congruence.
Qed.

Lemma regex_from_head : forall rest ks,
  follows_ok rest = true -> no_digit_head (regex_from ks rest) = true.
Proof.
  intros [|seg rest] ks H; [reflexivity|]. simpl in *.
  unfold step_regex. rewrite <- app_assoc.
  destruct (before_field seg) as [|c l] eqn:E; [discriminate|].
  apply escape_head; [exact H|discriminate].
Qed.

(** The pattern emitted for a delimited template parses to one group per
    key name. *)
Lemma parse_regex_from : forall segs ks cu nm,
  delimited segs = true ->
  (forall x, In x nm <-> In x ks) ->
  length (keys_from ks segs) < 100 ->
  parse (regex_from ks segs) None (mk_pstate [] cu (length ks) nm)
  = CompOk (length (keys_from ks segs)) (rev cu ++ nodes_from ks segs).
Proof.
  induction segs as [|seg rest IH]; intros ks cu nm Hd Hnm Hlen.
  - simpl. now rewrite app_nil_r.
  - cbn [regex_from nodes_from keys_from delimited] in *.
    apply andb_true_iff in Hd as [Hseg Hrest].
    unfold step_regex, step_nodes. rewrite <- !app_assoc.
    rewrite parse_escape.
    assert (Hrev : forall tail,
              rev (rev (map NChar (before_field seg)) ++ cu) ++ tail
              = rev cu ++ map NChar (before_field seg) ++ tail).
    { intros tail. now rewrite rev_app_distr, rev_involutive, <- app_assoc. }
    pose proof (keys_from_length rest (step_keys ks seg)) as Hmono.
    unfold step_keys in *.
    destruct (field_name seg) as [name|].
    + apply andb_true_iff in Hseg as [Hid Hfol].
      destruct name as [|c n]; [discriminate|].
      destruct (index (c :: n) ks) as [i|] eqn:Ei.
      * pose proof (index_bound _ _ Ei) as Hi.
        rewrite <- !app_assoc. rewrite parse_backref.
        -- rewrite IH by assumption.
           f_equal. cbn [rev]. rewrite <- app_assoc. cbn [app].
           now rewrite Hrev.
        -- apply two_digits_below_100. lia.
        -- lia.
        -- now apply regex_from_head.
      * pose proof (index_none _ _ Ei) as Hni.
        rewrite <- !app_assoc. rewrite parse_group.
        -- replace (S (length ks)) with (length (ks ++ [c :: n]))
             by (rewrite length_app; simpl; lia).
           rewrite IH.
           ++ f_equal. cbn [rev]. rewrite <- app_assoc. cbn [app].
              now rewrite Hrev.
           ++ exact Hrest.
           ++ intros x. rewrite in_app_iff. simpl. rewrite Hnm. tauto.
           ++ exact Hlen.
        -- exact Hid.
        -- unfold mem. destruct (in_dec str_eq_dec (c :: n) nm) as [Hin|];
             [|reflexivity].
           apply Hnm in Hin. contradiction.
    + cbn [app]. rewrite IH by assumption. f_equal. apply Hrev.
Qed.

Lemma compile_scan : forall segs,
  delimited segs = true -> length (keys (scan segs)) < 100 ->
  compile (regex_pattern (scan segs))
  = CompOk (length (keys (scan segs))) (nodes_from [] segs).
Proof.
  intros segs Hd Hlen. rewrite scan_keys in *. rewrite scan_regex.
  unfold compile, pstate0.
  apply (parse_regex_from segs [] [] []); auto. tauto.
Qed.

End EmittedPattern.

(* ----------------------------------------------------------------- *)
(** ** Matching the path a template was substituted into *)

Section RoundTrip.

Import ClickUtils Template PyRe.

Lemma m_list_app : forall a b k,
  m_list (a ++ b) k = m_list a (m_list b k).
Proof.
  induction a as [|n a IH]; intros b k; simpl; [reflexivity|].
  now rewrite IH.
Qed.

Lemma m_chars : forall l k cs s,
  m_list (map NChar l) k cs (l ++ s) = k cs s.
Proof.
  induction l as [|c l IH]; intros k cs s; simpl; [reflexivity|].
  rewrite Ascii.eqb_refl. apply IH.
Qed.

Lemma strip_prefix_app : forall p s, strip_prefix p (p ++ s) = Some s.
Proof.
  induction p as [|c p IH]; intros s; simpl; [reflexivity|].
  rewrite Ascii.eqb_refl. apply IH.
Qed.

Lemma consumed_app : forall v r, consumed (v ++ r) r = v.
Proof.
  intros v r. unfold consumed. rewrite length_app.
  replace (length v + length r - length r) with (length v) by lia.
  apply firstn_length_app.
Qed.

Lemma consumed_all : forall s, consumed s [] = s.
Proof.
  intros s. unfold consumed. simpl. rewrite Nat.sub_0_r. apply firstn_all.
Qed.

Lemma greedy_stops : forall K r,
  no_alnum_head r = true -> greedy_loop K r = None.
Proof.
  intros K [|c r] H; simpl; [reflexivity|].
  simpl in H. apply negb_true_iff in H. now rewrite H.
Qed.

(** The greedy class takes exactly a value that is followed by a
    character it does not accept, provided the rest then matches. *)
Lemma greedy_exact : forall K v r res,
  v <> [] -> forallb is_alnum v = true -> no_alnum_head r = true ->
  K r = Some res -> greedy_loop K (v ++ r) = Some res.
Proof.
  induction v as [|c v IH]; intros r res Hne Hv Hr HK; [now elim Hne|].
  simpl in Hv. apply andb_true_iff in Hv as [Hc Hv].
  simpl. rewrite Hc.
  destruct v as [|c2 v].
  - simpl. now rewrite (@greedy_stops K r Hr).
  - rewrite (IH r res); [reflexivity|discriminate|assumption..].
Qed.

Lemma set_cap_next : forall (v : str -> str) ks x val m,
  v x = val ->
  set_cap (S (length ks)) val (map v ks ++ repeat [] (S m))
  = map v (ks ++ [x]) ++ repeat [] m.
Proof.
  intros v ks x val m <-. unfold set_cap.
  replace (S (length ks) - 1) with (length ks) by lia.
  rewrite map_app; simpl. rewrite <- app_assoc; simpl.
  induction ks as [|k ks IH]; simpl; [reflexivity|]. now rewrite IH.
Qed.

Lemma nth_index : forall (v : str -> str) ks x i tail,
  index x ks = Some i -> nth i (map v ks ++ tail) [] = v x.
Proof.
  intros v ks x i tail H.
  destruct (index_split _ _ H) as (l1 & l2 & -> & _ & <-).
  rewrite map_app; simpl. rewrite <- app_assoc; simpl.
  rewrite app_nth2; rewrite length_map; [|lia].
  now rewrite Nat.sub_diag.
Qed.

Lemma step_keys_incl : forall ks seg x,
  In x ks -> In x (step_keys ks seg).
Proof.
  intros ks seg x H. unfold step_keys.
  destruct (field_name seg) as [[|c n]|]; auto.
  destruct (index (c :: n) ks); auto. apply in_or_app. now left.
Qed.

Lemma keys_from_incl : forall segs ks x,
  In x ks -> In x (keys_from ks segs).
Proof.
  induction segs as [|seg rest IH]; intros ks x H; simpl; [exact H|].
  apply IH. now apply step_keys_incl.
Qed.

Lemma substitute_head : forall (v : str -> str) rest,
  follows_ok rest = true -> no_alnum_head (substitute v rest) = true.
Proof.
  intros v [|seg rest] H; [reflexivity|]. simpl in *.
  destruct (before_field seg) as [|c l]; [discriminate|exact H].
Qed.

Lemma match_nodes_from : forall (v : str -> str) segs ks m k res,
  delimited segs = true ->
  (forall x, In x (keys_from ks segs) -> alnum_value (v x)) ->
  k (map v (keys_from ks segs) ++ repeat [] m) [] = Some res ->
  m_list (nodes_from ks segs) k
    (map v ks ++ repeat [] (length (keys_from ks segs) - length ks + m))
    (substitute v segs)
  = Some res.
Proof.
  intros v. induction segs as [|seg rest IH]; intros ks m k res Hd Hv Hk.
  - simpl. now rewrite Nat.sub_diag.
  - cbn [nodes_from keys_from delimited substitute] in *.
    apply andb_true_iff in Hd as [Hseg Hrest].
    unfold step_nodes. rewrite <- !app_assoc.
    rewrite m_list_app, m_chars, m_list_app.
    pose proof (keys_from_length rest (step_keys ks seg)) as Hmono.
    specialize (IH (step_keys ks seg)).
    unfold step_keys in *.
    destruct (field_name seg) as [name|].
    + apply andb_true_iff in Hseg as [Hid Hfol].
      destruct name as [|c n]; [discriminate|].
      destruct (index (c :: n) ks) as [i|] eqn:Ei.
      * cbn [m_list m_node]. replace (i + 1 - 1) with i by lia.
        rewrite (@nth_index v ks (c :: n) i _ Ei), strip_prefix_app.
        now apply IH.
      * cbn [m_list m_node].
        assert (Hval : alnum_value (v (c :: n))).
        { apply Hv, keys_from_incl, in_or_app. right. now left. }
        destruct Hval as [Hne Hal].
        rewrite length_app in Hmono. simpl in Hmono.
        apply greedy_exact; auto using substitute_head.
        rewrite consumed_app.
        replace (length (keys_from (ks ++ [c :: n]) rest) - length ks + m)
          with (S (length (keys_from (ks ++ [c :: n]) rest)
                   - length (ks ++ [c :: n]) + m))
          by (rewrite length_app; simpl; lia).
        rewrite (@set_cap_next v ks (c :: n) _ _ eq_refl).
        now apply IH.
    + cbn [app m_list]. now apply IH.
Qed.

Lemma keys_from_identifiers : forall segs ks,
  delimited segs = true ->
  (forall x, In x ks -> is_identifier x = true) ->
  forall x, In x (keys_from ks segs) -> is_identifier x = true.
Proof.
  induction segs as [|seg rest IH]; intros ks Hd Hks x Hx; simpl in *;
    [now apply Hks|].
  apply andb_true_iff in Hd as [Hseg Hrest].
  apply (IH (step_keys ks seg)); auto.
  intros y Hy. unfold step_keys in Hy.
  destruct (field_name seg) as [[|c n]|]; auto.
  destruct (index (c :: n) ks); auto.
  apply in_app_or in Hy as [Hy|[<-|[]]]; auto.
  now apply andb_true_iff in Hseg as [Hid _].
Qed.

Lemma identifier_match_w : forall x,
  is_identifier x = true -> match_w x = true.
Proof.
  intros [|c x] H; [discriminate|]. simpl in *.
  apply andb_true_iff in H as [H _].
  unfold is_id_start in H. unfold is_word, is_alnum.
  destruct (is_ascii_letter c), (c =? "_")%char, (is_latin1_letter c);
    try discriminate; rewrite ?orb_true_r; reflexivity.
Qed.

(** A delimited template matches the whole of the path it was substituted
    into, and captures the values substituted. *)
Lemma rmatch_substitute : forall (v : str -> str) segs,
  delimited segs = true ->
  length (keys (scan segs)) < 100 ->
  (forall x, In x (keys (scan segs)) -> alnum_value (v x)) ->
  rmatch (regex_pattern (scan segs)) (substitute v segs)
  = Match (map v (keys (scan segs))) (substitute v segs).
Proof.
  intros v segs Hd Hlen Hv. unfold rmatch.
  rewrite compile_scan by assumption.
  rewrite scan_keys in *.
  pose proof (@match_nodes_from v segs [] 0
                (fun cs r => Some (cs, r))
                (map v (keys_from [] segs), []) Hd Hv) as H.
  simpl in H. rewrite Nat.sub_0_r, Nat.add_0_r, app_nil_r in H.
  unfold caps, str in *. rewrite H by reflexivity.
  now rewrite consumed_all.
Qed.


(** C4, for delimited templates.  When every field of the template is named
    by an identifier and is followed by the end of the template or by
    literal text that starts with a character that is not alphanumeric,
    when there are fewer than 100 key names, and when the candidates are
    the paths made by substituting non-empty alphanumeric values, with
    pairwise distinct key tuples, the converter returns the catalog that
    maps, for each file in turn, the tuple of the values substituted for
    the key names to the whole path of the file. *)
Theorem delimited_round_trip :
  forall (fs : filesystem) (segs : list segment)
         (values : list (str -> str)),
  delimited segs = true ->
  keys (scan segs) <> [] ->
  length (keys (scan segs)) < 100 ->
  values <> [] ->
  (forall v x, In v values -> In x (keys (scan segs)) ->
               alnum_value (v x)) ->
  NoDup (map (fun v : str -> str => map v (keys (scan segs))) values) ->
  map (realpath fs) (glob fs (glob_pattern (scan segs)))
  = map (fun v => substitute v segs) values ->
  round_trip fs segs values.
Proof.
  intros fs segs values Hd Hk Hlen Hne Hv Hnd Hc.
  unfold round_trip, convert.
  assert (Hw : forallb match_w (keys (scan segs)) = true).
  { apply forallb_forall. intros x Hx. apply identifier_match_w.
    rewrite scan_keys in Hx.
    apply (keys_from_identifiers segs [] Hd); [intros y []|exact Hx]. }
  destruct (keys (scan segs)) as [|k0 ks0] eqn:Ek; [now elim Hk|].
  rewrite Hw. cbn [negb]. rewrite Hc. rewrite <- Ek in *.
  assert (Hm : forall v, In v values ->
            rmatch (regex_pattern (scan segs)) (substitute v segs)
            = Match (map v (keys (scan segs))) (substitute v segs)).
  { intros v Hin. apply rmatch_substitute; auto. }
  rewrite match_candidates_settled.
  2:{ intros c Hin. apply in_map_iff in Hin as (v & <- & Hin).
      right. eauto. }
  cbn [bind].
  assert (Hmap : map (match_of (regex_pattern (scan segs)))
                     (map (fun v => substitute v segs) values)
                 = map (fun v => Some (map v (keys (scan segs)),
                                       substitute v segs)) values).
  { rewrite map_map. apply map_ext_in. intros v Hin.
    unfold match_of. now rewrite (Hm v Hin). }
  rewrite Hmap.
  assert (Hms : forall l : list (str -> str),
            matches (map (fun v => Some (map v (keys (scan segs)),
                                         substitute v segs)) l)
            = map (fun v => (map v (keys (scan segs)),
                             substitute v segs)) l).
  { induction l as [|v l IH]; simpl; [reflexivity|]. now rewrite IH. }
  rewrite Hms.
  replace (existsb is_some _) with true.
  2:{ symmetry. destruct values as [|v vs]; [now elim Hne|reflexivity]. }
  cbn [negb].
  assert (Hfst : map fst (map (fun v : str -> str =>
                                 (map v (keys (scan segs)),
                                  substitute v segs)) values)
                 = map (fun v : str -> str => map v (keys (scan segs)))
                       values)
    by (rewrite map_map; reflexivity).
  rewrite Hfst.
  rewrite (proj2 (Nat.eqb_eq _ _) (proj2 (count_distinct_full _) Hnd)).
  cbn [negb].
  rewrite dict_of_items_nodup by (rewrite Hfst; exact Hnd).
  reflexivity.
Qed.

End RoundTrip.

Section WorkedTemplates.

Import ClickUtils Template Examples.

(** C4 fails as stated: [/d/{a}{b}.tif] with [x] for [a] and [yz] for [b]
    makes the file [/d/xyz.tif], which the pattern reads as [xy] and [z]. *)
Lemma adjacent_fields_do_not_round_trip :
  map (realpath fs_adjacent)
      (glob fs_adjacent (glob_pattern (scan tmpl_adjacent)))
  = [substitute value_adjacent tmpl_adjacent]
  /\ convert fs_adjacent tmpl_adjacent
     = Ok ([lit "a"; lit "b"], [([lit "xy"; lit "z"], lit "/d/xyz.tif")])
  /\ ~ round_trip fs_adjacent tmpl_adjacent [value_adjacent].
Proof.
  split; [vm_compute; reflexivity|]. split; [vm_compute; reflexivity|].
  unfold round_trip. vm_compute. discriminate.
Qed.

(** The pattern is matched at the start of a candidate only: for
    [/d/{name}{}] and the file [/d/a.tif] the catalog holds [/d/a]. *)
Lemma open_end_maps_to_prefix :
  convert fs_open_end tmpl_open_end
  = Ok ([lit "name"], [([lit "a"], lit "/d/a")]).
Proof. vm_compute. reflexivity. Qed.

Lemma delimited_round_trip_witness :
  convert fs_pg tmpl_pg = Ok cat_pg.
Proof.
  apply (@delimited_round_trip fs_pg tmpl_pg [value_red; value_green]).
  - vm_compute. reflexivity.
  - vm_compute. discriminate.
  - vm_compute. lia.
  - discriminate.
  - intros v x Hv Hx. vm_compute in Hx.
    destruct Hv as [<-|[<-|[]]]; destruct Hx as [<-|[<-|[]]];
      (split; [vm_compute; discriminate|vm_compute; reflexivity]).
  - vm_compute. constructor; [intros [E|[]]; discriminate|].
    constructor; [intros []|constructor].
  - vm_compute. reflexivity.
Defined.

End WorkedTemplates.

(* ----------------------------------------------------------------- *)
(** ** The catalog invariant along the pipeline *)

Section Invariant.

Import ClickUtils Ingest.

(** The converter never returns two entries for one key tuple. *)
Lemma convert_keys_distinct : forall fs segs c,
  convert fs segs = Ok c -> NoDup (map fst (snd c)).
Proof.
  intros fs segs c H. unfold convert in H.
  destruct (keys (scan segs)); [discriminate|].
  destruct (negb _); [discriminate|].
  destruct (match_candidates _ _) as [ms|e]; [|discriminate].
  cbn [bind] in H.
  destruct (negb _); [discriminate|].
  destruct (negb _); [discriminate|].
  injection H as <-. apply dict_of_items_keys.
Qed.

Lemma filtered_catalog_wf : forall (keys : list str) (files : dict)
    (p : list str * str -> bool),
  wf_catalog (keys, files) -> wf_catalog (keys, filter p files).
Proof.
  intros keys files p [Hnd Hlen]; simpl in *. split; simpl.
  - now apply NoDup_map_filter.
  - apply Forall_forall. intros kv Hin. apply filter_In in Hin as [Hin _].
    rewrite Forall_forall in Hlen. now apply Hlen.
Qed.

Lemma newer_items_ok : forall fs cutoff files items,
  newer_items fs cutoff files = Ok items ->
  items = filter (newer_than fs cutoff) files.
Proof.
  intros fs cutoff. induction files as [|[k p] files IH]; simpl;
    intros items E.
  - now injection E as <-.
  - unfold newer_than at 1; simpl.
    destruct (mtime fs p) as [t|]; [|discriminate].
    destruct (newer_items fs cutoff files) as [rest|]; [|discriminate].
    cbn [bind] in E. injection E as <-. rewrite <- (IH rest eq_refl).
    now destruct (cutoff <? t)%Z.
Qed.

(** Both filters keep the catalog invariant. *)
Lemma filters_keep_invariant : forall fs cutoff existing keys files,
  wf_catalog (keys, files) ->
  wf_catalog (keys, filter_existing existing files)
  /\ forall kept, filter_age fs cutoff files = Ok kept ->
                  wf_catalog (keys, kept).
Proof.
  intros fs cutoff existing keys files Hwf. split.
  - rewrite filter_existing_eq by apply Hwf. now apply filtered_catalog_wf.
  - intros kept H. unfold filter_age in H.
    destruct (newer_items fs cutoff files) as [items|e] eqn:E;
      [|discriminate].
    cbn [bind] in H. injection H as <-.
    apply newer_items_ok in E. subst items.
    pose proof (filtered_catalog_wf (newer_than fs cutoff) Hwf) as Hwf'.
    rewrite dict_of_items_nodup by apply Hwf'. exact Hwf'.
Qed.

End Invariant.

(* ----------------------------------------------------------------- *)
(** ** Further properties of the metadata key paths *)

Section MoreKeyPaths.

Import Metadata More.

Lemma parsed_keys_plain : forall k, plain_key k -> parsed_keys k = [k].
Proof.
  intros k [Hne Hs]. unfold parsed_keys. rewrite split_plain by exact Hs.
  simpl. destruct k; [now elim Hne|reflexivity].
Qed.

Lemma join_parsed : forall ks,
  Forall plain_key ks -> parsed_keys (join_slash ks) = ks.
Proof.
  induction ks as [|k ks IH]; intros H; [reflexivity|].
  inversion H as [|? ? Hk Hks]; subst.
  destruct ks as [|k2 ks].
  - simpl. now apply parsed_keys_plain.
  - change (join_slash (k :: k2 :: ks))
      with (k ++ "/"%char :: join_slash (k2 :: ks)).
    rewrite parsed_keys_at_slash, (parsed_keys_plain Hk), (IH Hks).
    reflexivity.
Qed.

(** X1.  Joining keys with slashes and parsing the path gives the keys back
    exactly when every key is non-empty and free of slashes. *)
Theorem parsed_keys_of_join : forall ks,
  parsed_keys (join_slash ks) = ks <-> Forall plain_key ks.
Proof.
  intros ks. split; [|apply join_parsed].
  intros E. rewrite <- E. apply parsed_keys_segments.
Qed.

Lemma parsed_keys_nil : forall s,
  parsed_keys s = [] <-> Forall (fun c => c = "/"%char) s.
Proof.
  intros s. induction s as [|c s IH].
  - split; [constructor|reflexivity].
  - destruct (c =? "/")%char eqn:E.
    + apply Ascii.eqb_eq in E. subst c.
      change (parsed_keys ("/"%char :: s)) with (parsed_keys s).
      rewrite IH. split; intros H; [now constructor|now inversion H].
    + split; intros H.
      * exfalso. unfold parsed_keys in H. simpl in H. rewrite E in H.
        destruct (split "/" s); simpl in H; discriminate.
      * inversion H; subst. now rewrite Ascii.eqb_refl in E.
Qed.

(** X2.  Parsing normalises a key path: the keys are non-empty and free of
    slashes, joining them and parsing again changes nothing, and no key
    comes out exactly when the path is made of slashes only. *)
Theorem parsed_keys_normal_form : forall s,
  Forall plain_key (parsed_keys s)
  /\ parsed_keys (join_slash (parsed_keys s)) = parsed_keys s
  /\ (parsed_keys s = [] <-> Forall (fun c => c = "/"%char) s).
Proof.
  intros s. split; [apply parsed_keys_segments|].
  split; [apply join_parsed, parsed_keys_segments|apply parsed_keys_nil].
Qed.

End MoreKeyPaths.

(* ----------------------------------------------------------------- *)
(** ** Further properties of the ingestion *)

Section MoreIngest.

Import Ingest More.

Lemma dict_get_set_same : forall k v d, dict_get k (dict_set k v d) = Some v.
Proof.
  intros k v d. induction d as [|[k' v'] d IH]; simpl.
  - destruct (tuple_eq_dec k k); [reflexivity|congruence].
  - destruct (tuple_eq_dec k k') as [E|N]; simpl.
    + destruct (tuple_eq_dec k k'); [reflexivity|congruence].
    + destruct (tuple_eq_dec k k'); [congruence|exact IH].
Qed.

Lemma dict_get_set_other : forall k k' v d,
  k <> k' -> dict_get k (dict_set k' v d) = dict_get k d.
Proof.
  intros k k' v d N. induction d as [|[k2 v2] d IH]; simpl.
  - destruct (tuple_eq_dec k k'); [congruence|reflexivity].
  - destruct (tuple_eq_dec k' k2) as [E|N2]; simpl.
    + subst k2. destruct (tuple_eq_dec k k'); [congruence|reflexivity].
    + destruct (tuple_eq_dec k k2); [reflexivity|exact IH].
Qed.

Lemma dict_set_keys_in : forall k k' v d,
  In k (map fst (dict_set k' v d)) <-> k = k' \/ In k (map fst d).
Proof.
  intros k k' v d. induction d as [|[k2 v2] d IH]; simpl.
  - split; [intros [E|[]]; auto|intros [E|[]]; auto].
  - destruct (tuple_eq_dec k' k2) as [E|N]; simpl.
    + subst k2. split; intros H; intuition auto.
    + rewrite IH. tauto.
Qed.

Lemma dict_fold_keys_in : forall items d k,
  In k (map fst (fold_left (fun d kv => dict_set (fst kv) (snd kv) d)
                   items d))
  <-> In k (map fst items) \/ In k (map fst d).
Proof.
  induction items as [|[k1 p1] items IH]; intros d k; simpl.
  - tauto.
  - rewrite IH, dict_set_keys_in. split; intros H; intuition auto.
Qed.

Lemma dict_of_items_keys_in : forall items k,
  In k (map fst (dict_of_items items)) <-> In k (map fst items).
Proof.
  intros items k. unfold dict_of_items. rewrite dict_fold_keys_in.
  simpl. tauto.
Qed.

Lemma dict_fold_get : forall items d,
  NoDup (map fst items) ->
  (forall k p, In (k, p) items ->
     dict_get k (fold_left (fun d kv => dict_set (fst kv) (snd kv) d)
                   items d) = Some p)
  /\ (forall k, ~ In k (map fst items) ->
        dict_get k (fold_left (fun d kv => dict_set (fst kv) (snd kv) d)
                      items d) = dict_get k d).
Proof.
  induction items as [|[k1 p1] items IH]; intros d Hnd; simpl.
  - split; [intros k p []|reflexivity].
  - inversion Hnd as [|? ? Hn Hd]; subst.
    destruct (IH (dict_set k1 p1 d) Hd) as [Hin Hout]. split.
    + intros k p [E|H]; [|now apply Hin].
      injection E as <- <-. rewrite Hout by exact Hn.
      apply dict_get_set_same.
    + intros k Hk. rewrite Hout by tauto.
      apply dict_get_set_other. intros ->. apply Hk. now left.
Qed.

(** The loop on a store that accepts every insert. *)
Lemma insert_all_accepted : forall skip items st,
  accepts_all st ->
  insert_all skip items st
  = mk_run (Ok tt)
      (mk_store (is_file st) (key_names st)
         (fold_left (fun d kv => dict_set (fst kv) (snd kv) d) items
            (datasets st))
         (rejects st))
      (inserted skip items).
Proof.
  intros skip. induction items as [|[k p] items IH]; intros st Hacc.
  - destruct st; reflexivity.
  - simpl. unfold insert. rewrite (Hacc k p).
    rewrite IH by (intros k' p'; apply Hacc). reflexivity.
Qed.

(** What the loop keeps whatever the store accepts. *)
Lemma insert_all_keeps : forall skip items st,
  let r := insert_all skip items st in
  is_file (final r) = is_file st
  /\ key_names (final r) = key_names st
  /\ rejects (final r) = rejects st
  /\ (forall k, In k (map fst (datasets st)) ->
                In k (map fst (datasets (final r))))
  /\ forallb is_inserted (trace r) = true
  /\ (result r = Ok tt ->
      forall k, In k (map fst items) ->
                In k (map fst (datasets (final r)))).
Proof.
  intros skip. induction items as [|[k p] items IH]; intros st; cbv zeta.
  - simpl. repeat split; auto. intros _ k [].
  - simpl. unfold insert.
    destruct (rejects st k p) eqn:E; simpl.
    + repeat split; auto. discriminate.
    + specialize (IH (mk_store (is_file st) (key_names st)
                        (dict_set k p (datasets st)) (rejects st))).
      cbv zeta in IH. simpl in IH.
      destruct IH as (H1 & H2 & H3 & H4 & H5 & H6).
      repeat split; auto.
      * intros k' Hk'. apply H4, dict_set_keys_in. now right.
      * intros Hok k' [<-|Hk'].
        -- apply H4, dict_set_keys_in. now left.
        -- now apply H6.
Qed.

Lemma keys_eqb_refl : forall ks, keys_eqb ks ks = true.
Proof.
  intros ks. unfold keys_eqb. destruct (tuple_eq_dec ks ks); congruence.
Qed.

Lemma filter_existing_none : forall files,
  NoDup (map fst files) -> filter_existing [] files = files.
Proof.
  intros files Hnd. rewrite filter_existing_eq by exact Hnd.
  apply filter_all. reflexivity.
Qed.

(** X3.  A key name for RGB that the pattern does not have is refused
    before anything else is done: the store is neither created nor
    changed, and nothing is written or inserted. *)
Theorem missing_rgb_key_touches_nothing :
  forall fs now (c : catalog) st skip k se age,
  ~ In k (fst c) ->
  ingest fs now c st skip (Some k) se age
  = mk_run (Raised (BadParameter msg_rgb_key)) st [].
Proof.
  intros fs now [keys files] st skip k se age Hn. simpl in Hn.
  unfold ingest, reorder.
  destruct (mem k keys) eqn:E; [|reflexivity].
  apply mem_true in E. contradiction.
Qed.

(** X4.  Ingesting into a file that does not exist yet creates the store
    with the key names of the catalog and inserts every entry, in the
    order of the catalog, each with the skip-metadata flag given; no
    incompatibility is reported, and the cache request follows. *)
Theorem new_store_holds_the_catalog :
  forall fs now (keys : list str) (files : dict) st skip se,
  is_file st = false -> accepts_all st -> NoDup (map fst files) ->
  ingest fs now (keys, files) st skip None se None
  = mk_run (Ok tt) (mk_store true keys files (rejects st))
      (inserted skip files ++ [ClearCache]).
Proof.
  intros fs now keys files st skip se Hf Hacc Hnd.
  unfold ingest. rewrite Hf. cbn [negb].
  assert (Hfiles : (if se then filter_existing (datasets (create keys st))
                                 files else files) = files)
    by (destruct se; [now apply filter_existing_none|reflexivity]).
  rewrite Hfiles.
  cbn [create key_names]. rewrite keys_eqb_refl. cbn [negb].
  rewrite insert_all_accepted by exact Hacc.
  cbn [result final trace is_file key_names datasets rejects app].
  f_equal. f_equal. now apply dict_of_items_nodup.
Qed.

(** X5.  After a run on an existing store that accepts every insert, each
    key tuple of the catalog is mapped to the path the catalog gives it,
    whatever the store held for it before, and the datasets under other
    key tuples are as they were. *)
Theorem ingested_paths_can_be_read_back :
  forall fs now (keys : list str) (files : dict) st skip,
  is_file st = true -> accepts_all st -> NoDup (map fst files) ->
  let r := ingest fs now (keys, files) st skip None false None in
  result r = Ok tt
  /\ (forall k p, In (k, p) files ->
                  dict_get k (datasets (final r)) = Some p)
  /\ (forall k, ~ In k (map fst files) ->
                dict_get k (datasets (final r)) = dict_get k (datasets st)).
Proof.
  intros fs now keys files st skip Hf Hacc Hnd. cbv zeta.
  unfold ingest. rewrite Hf. cbn [negb].
  rewrite insert_all_accepted by exact Hacc.
  cbn [result final trace datasets].
  destruct (@dict_fold_get files (datasets st) Hnd) as [Hin Hout].
  repeat split; assumption.
Qed.


Lemma filter_existing_all : forall existing files,
  (forall k, In k (map fst files) -> In k (map fst existing)) ->
  filter_existing existing files = [].
Proof.
  intros existing files H. unfold filter_existing.
  rewrite filter_none; [reflexivity|].
  intros kv Hin. apply negb_false_iff, dict_mem_true, H, in_map, Hin.
Qed.

Lemma filter_existing_keys : forall existing files k,
  In k (map fst files) ->
  In k (map fst existing) \/ In k (map fst (filter_existing existing files)).
Proof.
  intros existing files k Hin. unfold filter_existing.
  destruct (dict_mem k existing) eqn:E.
  - left. now apply dict_mem_true.
  - right. apply dict_of_items_keys_in.
    apply in_map_iff in Hin as (kv & <- & Hin).
    apply in_map, filter_In. split; [exact Hin|]. now rewrite E.
Qed.

(** X6.  Running the ingestion again with [skip_existing], after a run
    that returned normally, inserts nothing and leaves the store as the
    first run left it. *)
Theorem second_run_skips_everything :
  forall fs now (c : catalog) st skip rgb se,
  let r1 := ingest fs now c st skip rgb se None in
  result r1 = Ok tt ->
  let r2 := ingest fs now c (final r1) skip rgb true None in
  result r2 = Ok tt
  /\ filter is_inserted (trace r2) = []
  /\ final r2 = final r1.
Proof.
  intros fs now c st skip rgb se. cbv zeta. unfold ingest.
  destruct (match rgb with
            | Some k => reorder k c
            | None => Ok c
            end) as [[keys files]|e]; [|discriminate].
  set (st1 := if negb (is_file st) then create keys st else st).
  set (files1 := if se then filter_existing (datasets st1) files
                 else files).
  assert (Hfile : is_file st1 = true)
    by (unfold st1; destruct (is_file st) eqn:E; [exact E|reflexivity]).
  pose proof (insert_all_keeps skip files1 st1) as Hk. cbv zeta in Hk.
  destruct Hk as (K1 & K2 & K3 & K4 & K5 & K6).
  destruct (result (insert_all skip files1 st1)) as [[]|e] eqn:Er;
    [|discriminate].
  intros _. cbn [final].
  rewrite K1, Hfile. cbn [negb].
  rewrite filter_existing_all.
  - cbn [insert_all result final trace app].
    repeat split.
    destruct (negb (keys_eqb keys _)); reflexivity.
  - intros k Hin. unfold files1 in K6. destruct se.
    + destruct (filter_existing_keys (datasets st1) files k Hin) as [H|H].
      * now apply K4.
      * now apply K6.
    + now apply K6.
Qed.

Lemma insert_all_halts : forall skip l1 k p l2 st,
  (forall kv, In kv l1 -> rejects st (fst kv) (snd kv) = false) ->
  rejects st k p = true ->
  let r := insert_all skip (l1 ++ (k, p) :: l2) st in
  result r = Raised InsertError
  /\ trace r = inserted skip l1
  /\ datasets (final r)
     = fold_left (fun d kv => dict_set (fst kv) (snd kv) d) l1 (datasets st).
Proof.
  intros skip. induction l1 as [|[k1 p1] l1 IH]; intros k p l2 st Hl Hr;
    cbv zeta.
  - simpl. unfold insert. rewrite Hr. simpl. auto.
  - simpl. unfold insert.
    pose proof (Hl (k1, p1) (or_introl eq_refl)) as H0. simpl in H0.
    rewrite H0. simpl.
    specialize (IH k p l2
                  (mk_store (is_file st) (key_names st)
                     (dict_set k1 p1 (datasets st)) (rejects st))).
    cbv zeta in IH. simpl in IH.
    destruct IH as (H1 & H2 & H3);
      [intros kv Hin; apply Hl; now right|exact Hr|].
    rewrite H1, H2, H3. auto.
Qed.

Lemma filter_inserted : forall skip items,
  filter is_inserted (inserted skip items) = inserted skip items.
Proof.
  intros skip items. apply filter_all. intros e H.
  apply in_map_iff in H as (kv & <- & _). reflexivity.
Qed.

(** X7.  The batch stops at the first entry the store rejects: the entries
    before it have been inserted, in order, the rejected entry and the
    entries after it have not, the error reaches the caller and no cache
    request is sent. *)
Theorem rejected_insert_stops_the_batch :
  forall fs now (keys : list str) (l1 l2 : dict) k p st skip,
  is_file st = true ->
  (forall kv, In kv l1 -> rejects st (fst kv) (snd kv) = false) ->
  rejects st k p = true ->
  let r := ingest fs now (keys, l1 ++ (k, p) :: l2) st skip None false None
  in
  result r = Raised InsertError
  /\ filter is_inserted (trace r) = inserted skip l1
  /\ ~ In ClearCache (trace r)
  /\ datasets (final r)
     = fold_left (fun d kv => dict_set (fst kv) (snd kv) d) l1 (datasets st).
Proof.
  intros fs now keys l1 l2 k p st skip Hf Hl Hr. cbv zeta.
  unfold ingest. rewrite Hf. cbn [negb].
  destruct (insert_all_halts skip l1 k p l2 st Hl Hr) as (H1 & H2 & H3).
  rewrite H1. cbn [result final trace]. rewrite H2, H3.
  split; [reflexivity|]. split; [|split; [|reflexivity]].
  - rewrite filter_app, filter_inserted.
    destruct (negb (keys_eqb keys (key_names st))); reflexivity.
  - intros Hin. apply in_app_or in Hin as [Hin|Hin].
    + destruct (negb (keys_eqb keys (key_names st)));
        [destruct Hin as [E|[]]; discriminate|destruct Hin].
    + apply in_map_iff in Hin as (kv & E & _). discriminate.
Qed.

(** X8.  The request that clears the cache is sent exactly when the run
    returns normally. *)
Theorem cache_cleared_iff_returned :
  forall fs now (c : catalog) st skip rgb se age,
  let r := ingest fs now c st skip rgb se age in
  result r = Ok tt <-> In ClearCache (trace r).
Proof.
  intros fs now c st skip rgb se age. cbv zeta. unfold ingest.
  destruct (match rgb with
            | Some k => reorder k c
            | None => Ok c
            end) as [[keys files]|e];
    [|split; [discriminate|intros []]].
  set (st1 := if negb (is_file st) then create keys st else st).
  set (files1 := if se then filter_existing (datasets st1) files
                 else files).
  assert (Hecho : forall b : bool,
            ~ In ClearCache (if b then [EchoIncompatible] else []))
    by (intros [|] H; [destruct H as [E|[]]; discriminate|destruct H]).
  destruct (match age with
            | Some a =>
                cutoff <- cutoff_time now a ;; filter_age fs cutoff files1
            | None => Ok files1
            end) as [files2|e]; cbn [result trace].
  - pose proof (insert_all_keeps skip files2 st1) as Hk. cbv zeta in Hk.
    destruct Hk as (_ & _ & _ & _ & K5 & _).
    destruct (result (insert_all skip files2 st1)) as [[]|e];
      cbn [result trace].
    + split; [intros _|reflexivity].
      apply in_or_app. right. apply in_or_app. right. now left.
    + split; [discriminate|]. intros Hin.
      apply in_app_or in Hin as [Hin|Hin]; [now apply Hecho in Hin|].
      rewrite forallb_forall in K5. apply K5 in Hin. discriminate.
  - split; [discriminate|]. intros Hin. now apply Hecho in Hin.
Qed.

(** X9.  A run on an existing store never changes its key names and never
    removes a dataset: every key tuple the store held is still there. *)
Theorem existing_store_is_only_added_to :
  forall fs now (c : catalog) st skip rgb se age,
  is_file st = true ->
  let r := ingest fs now c st skip rgb se age in
  key_names (final r) = key_names st
  /\ is_file (final r) = true
  /\ forall k, In k (map fst (datasets st)) ->
               In k (map fst (datasets (final r))).
Proof.
  intros fs now c st skip rgb se age Hf. cbv zeta. unfold ingest.
  destruct (match rgb with
            | Some k => reorder k c
            | None => Ok c
            end) as [[keys files]|e]; [|cbn [final]; auto].
  rewrite Hf. cbn [negb].
  set (files1 := if se then filter_existing (datasets st) files
                 else files).
  destruct (match age with
            | Some a =>
                cutoff <- cutoff_time now a ;; filter_age fs cutoff files1
            | None => Ok files1
            end) as [files2|e]; cbn [final]; [|auto].
  pose proof (insert_all_keeps skip files2 st) as Hk. cbv zeta in Hk.
  destruct Hk as (K1 & K2 & _ & K4 & _).
  destruct (result (insert_all skip files2 st)); cbn [final];
    rewrite K1, K2; auto.
Qed.



Lemma cutoff_time_overflow : forall now d,
  ~ (0 <= now - d <= datetime_max)%Z ->
  cutoff_time now (Delta d) = Raised OverflowError.
Proof.
  intros now d H. unfold cutoff_time.
  destruct (0 <=? now - d)%Z eqn:E1; cbn [andb]; [|reflexivity].
  destruct (now - d <=? datetime_max)%Z eqn:E2; [|reflexivity].
  apply Z.leb_le in E1. apply Z.leb_le in E2. exfalso. apply H. lia.
Qed.



(** X20.  With no RGB key, an age limit given as a duration that reaches
    back before the first date, or forward past the last one, makes the run
    fail with the overflow error: nothing is inserted, the cache is not
    cleared, and the store is left as it was when it existed, and as
    [create] made it when it did not. *)
Theorem overflowing_cutoff_stops_the_run :
  forall fs now (c : catalog) st skip se d,
  ~ (0 <= now - d <= datetime_max)%Z ->
  let r := ingest fs now c st skip None se (Some (Delta d)) in
  result r = Raised OverflowError
  /\ filter is_inserted (trace r) = []
  /\ ~ In ClearCache (trace r)
  /\ final r = if is_file st then st else create (fst c) st.
Proof.
  intros fs now [keys files] st skip se d Hd. cbv zeta.
  unfold ingest. rewrite (cutoff_time_overflow now d Hd).
  cbn [bind result trace final fst].
  destruct (is_file st); cbn [negb];
    (split; [reflexivity|]; split; [|split; [|reflexivity]]);
    match goal with
    | |- context [negb ?b] => destruct (negb b)
    end;
    try reflexivity; intros H; try (destruct H as [E|[]]; discriminate);
    destruct H.
Qed.

End MoreIngest.

(* ----------------------------------------------------------------- *)
(** ** Further properties of the reordering *)

Section MoreReorder.

Import Ingest More.

(** X11.  [push_to_last] raises exactly when the index is out of range;
    otherwise its result is a rearrangement of the sequence, of the same
    length, that ends with the element at the index and keeps the others
    in their order. *)
Theorem push_to_last_rearranges : forall (A : Type) (seq : list A) (i : nat),
  (length seq <= i -> push_to_last seq i = Raised IndexError)
  /\ (i < length seq ->
      exists t1 x t2,
        seq = t1 ++ x :: t2 /\ length t1 = i
        /\ push_to_last seq i = Ok (t1 ++ t2 ++ [x])
        /\ Permutation seq (t1 ++ t2 ++ [x])
        /\ length (t1 ++ t2 ++ [x]) = length seq).
Proof.
  intros A seq i. split.
  - intros Hle. unfold push_to_last.
    now rewrite (proj2 (nth_error_None seq i) Hle).
  - intros Hlt. destruct (split_at seq Hlt) as (t1 & x & t2 & -> & <-).
    exists t1, x, t2. split; [reflexivity|]. split; [reflexivity|].
    split; [apply push_to_last_split|]. split.
    + apply Permutation_app_head.
      change (x :: t2) with ([x] ++ t2). apply Permutation_app_comm.
    + rewrite !length_app. simpl. lia.
Qed.

Lemma index_last : forall k l, ~ In k l -> index k (l ++ [k]) = Some (length l).
Proof.
  intros k l. induction l as [|y l IH]; simpl; intros H.
  - destruct (str_eq_dec k k); congruence.
  - destruct (str_eq_dec k y) as [->|N]; [elim H; now left|].
    rewrite IH by tauto. reflexivity.
Qed.

Lemma push_last_position : forall (A : Type) (t : list A) (n : nat),
  length t = S n -> push_to_last t n = Ok t.
Proof.
  intros A t n Hl.
  assert (Hlt : n < length t) by lia.
  destruct (split_at t Hlt) as (t1 & x & t2 & -> & <-).
  rewrite push_to_last_split.
  rewrite length_app in Hl. simpl in Hl.
  destruct t2; [reflexivity|simpl in Hl; lia].
Qed.

Lemma reorder_last : forall (l : list str) (k : str) (files : dict),
  wf_catalog (l ++ [k], files) -> ~ In k l ->
  reorder k (l ++ [k], files) = Ok (l ++ [k], files).
Proof.
  intros l k files [Hnd Hlen] Hn; simpl in *.
  unfold reorder.
  rewrite (proj2 (mem_true k (l ++ [k])))
    by (apply in_or_app; right; now left).
  cbn [negb]. rewrite index_last by exact Hn.
  rewrite push_last_position by (rewrite length_app; simpl; lia).
  cbn [bind].
  rewrite (map_outcome_ok _ (fun kv : list str * str => kv)).
  - cbn [bind]. rewrite map_id. now rewrite dict_of_items_nodup.
  - intros [t p] Hin. rewrite Forall_forall in Hlen.
    specialize (Hlen _ Hin). simpl in Hlen.
    rewrite length_app in Hlen. simpl in Hlen.
    simpl. rewrite push_last_position by lia. reflexivity.
Qed.

Lemma reorder_shape : forall (keys : list str) (files : dict) k c',
  wf_catalog (keys, files) -> reorder k (keys, files) = Ok c' ->
  exists l1 l2,
    keys = l1 ++ k :: l2 /\ ~ In k l1
    /\ c' = (l1 ++ l2 ++ [k],
             map (fun kv : list str * str =>
                    (move_last (length l1) (fst kv), snd kv)) files).
Proof.
  intros keys files k c' Hwf H. unfold reorder in H.
  destruct (mem k keys) eqn:Em; [|discriminate]. cbn [negb] in H.
  destruct (index k keys) as [i|] eqn:Ei; [|discriminate].
  destruct (index_split k keys Ei) as (l1 & l2 & -> & Hn & <-).
  exists l1, l2. split; [reflexivity|]. split; [exact Hn|].
  assert (Hlt : length l1 < length (l1 ++ k :: l2))
    by (rewrite length_app; simpl; lia).
  pose proof (moved_catalog_wf Hwf Hlt) as Hwf'.
  rewrite push_to_last_split in H. cbn [bind] in H.
  rewrite (map_outcome_ok _
             (fun kv : list str * str =>
                (move_last (length l1) (fst kv), snd kv))) in H.
  - cbn [bind] in H. injection H as <-. f_equal.
    apply dict_of_items_nodup, Hwf'.
  - intros kv Hkv. destruct Hwf as [_ Hlen]; simpl in Hlen.
    rewrite Forall_forall in Hlen.
    rewrite push_to_last_move; [reflexivity|].
    rewrite (Hlen _ Hkv). exact Hlt.
Qed.

(** X12.  Promoting the key name that is already last changes nothing, and
    promoting a key name twice is the same as promoting it once. *)
Theorem reorder_is_idempotent : forall (c c' : catalog) (k : str),
  wf_catalog c -> NoDup (fst c) ->
  reorder k c = Ok c' ->
  reorder k c' = Ok c'
  /\ (forall l, fst c = l ++ [k] -> c' = c).
Proof.
  intros [keys files] c' k Hwf Hnd H. simpl in Hnd.
  destruct (@reorder_shape keys files k c' Hwf H)
    as (l1 & l2 & -> & Hn & ->).
  assert (Hlt : length l1 < length (l1 ++ k :: l2))
    by (rewrite length_app; simpl; lia).
  pose proof (moved_catalog_wf Hwf Hlt) as Hwf'.
  rewrite move_last_split in Hwf'.
  apply NoDup_remove_2 in Hnd.
  split.
  - rewrite app_assoc. apply reorder_last; [now rewrite <- app_assoc|].
    exact Hnd.
  - intros l El. simpl in El.
    assert (l2 = []).
    { destruct l2 as [|y l2] using rev_ind; [reflexivity|].
      exfalso. change (k :: l2 ++ [y]) with ((k :: l2) ++ [y]) in El.
      rewrite app_assoc in El. apply app_inj_tail in El as [_ <-].
      apply Hnd. apply in_or_app. right. apply in_or_app. right.
      now left. }
    subst l2. simpl. f_equal.
    rewrite <- (map_id files) at 2. apply map_ext_in.
    intros [t p] Hin. destruct Hwf as [_ Hlen]; simpl in Hlen.
    rewrite Forall_forall in Hlen. specialize (Hlen _ Hin).
    simpl in Hlen. rewrite length_app in Hlen. simpl in Hlen.
    simpl. f_equal.
    assert (Ht : length l1 < length t) by lia.
    destruct (split_at t Ht) as (t1 & x & t2 & -> & E1).
    rewrite <- E1, move_last_split.
    rewrite length_app in Hlen. simpl in Hlen.
    destruct t2; [reflexivity|simpl in Hlen; lia].
Qed.

End MoreReorder.

(* ----------------------------------------------------------------- *)
(** ** Further properties of the converter *)

Section MoreConvert.

Import ClickUtils Template More.

Lemma step_keys_in : forall ks seg k,
  In k (step_keys ks seg)
  <-> In k ks \/ exists c n, field_name seg = Some (c :: n) /\ k = c :: n.
Proof.
  intros ks seg k. unfold step_keys.
  destruct (field_name seg) as [[|c n]|].
  - split; [auto|intros [H|(c & n & E & _)]; [exact H|discriminate]].
  - destruct (index (c :: n) ks) as [i|] eqn:Ei.
    + split; [auto|]. intros [H|(c' & n' & E & ->)]; [exact H|].
      injection E as <- <-.
      destruct (index_split _ _ Ei) as (l1 & l2 & -> & _).
      apply in_or_app. right. now left.
    + rewrite in_app_iff. simpl. split.
      * intros [H|[<-|[]]]; [now left|right; eauto].
      * intros [H|(c' & n' & E & ->)]; [now left|].
        injection E as <- <-. right. now left.
  - split; [auto|intros [H|(c & n & E & _)]; [exact H|discriminate]].
Qed.

Lemma keys_from_in : forall segs ks k,
  In k (keys_from ks segs) <-> In k ks \/ In k (named_fields segs).
Proof.
  induction segs as [|seg rest IH]; intros ks k; simpl; [tauto|].
  rewrite IH, step_keys_in, in_app_iff.
  assert (Hseg : In k match field_name seg with
                      | Some (c :: n) => [c :: n]
                      | _ => []
                      end
                 <-> exists c n, field_name seg = Some (c :: n)
                                 /\ k = c :: n).
  { destruct (field_name seg) as [[|c n]|]; simpl.
    - split; [intros []|intros (c & n & E & _); discriminate].
    - split; [intros [<-|[]]; eauto|].
      intros (c' & n' & E & ->). injection E as <- <-. now left.
    - split; [intros []|intros (c & n & E & _); discriminate]. }
  rewrite Hseg. tauto.
Qed.

Lemma keys_from_nodup : forall segs ks,
  NoDup ks -> NoDup (keys_from ks segs).
Proof.
  induction segs as [|seg rest IH]; intros ks Hnd; simpl; [exact Hnd|].
  apply IH. unfold step_keys.
  destruct (field_name seg) as [[|c n]|]; try exact Hnd.
  destruct (index (c :: n) ks) eqn:Ei; [exact Hnd|].
  apply index_none in Ei.
  apply NoDup_app; [exact Hnd|repeat constructor; intros []|].
  intros x Hx [<-|[]]. contradiction.
Qed.

Lemma keys_in_named : forall segs k,
  In k (keys (scan segs)) <-> In k (named_fields segs).
Proof.
  intros segs k. rewrite scan_keys, keys_from_in. simpl. tauto.
Qed.

(** X13.  The key names of a template are the names of its named fields,
    each of them once. *)
Theorem keys_are_the_named_fields : forall segs,
  NoDup (keys (scan segs))
  /\ forall k, In k (keys (scan segs)) <-> In k (named_fields segs).
Proof.
  intros segs. split; [|apply keys_in_named].
  rewrite scan_keys. apply keys_from_nodup. constructor.
Qed.

Lemma keys_nil : forall segs,
  keys (scan segs) = [] <-> named_fields segs = [].
Proof.
  intros segs. rewrite scan_keys.
  split; intros E.
  - destruct (named_fields segs) as [|k l] eqn:En; [reflexivity|].
    assert (H : In k (keys_from [] segs))
      by (apply keys_from_in; right; rewrite En; now left).
    rewrite E in H. destruct H.
  - destruct (keys_from [] segs) as [|k l] eqn:Ek; [reflexivity|].
    assert (H : In k (named_fields segs)).
    { assert (H : In k (keys_from [] segs)) by (rewrite Ek; now left).
      apply keys_from_in in H as [[]|H]. exact H. }
    rewrite E in H. destruct H.
Qed.

(** The outcomes of [convert], by the checks it runs in turn. *)
Lemma convert_cases : forall fs segs,
  let p := scan segs in
  let candidates := map (realpath fs) (glob fs (glob_pattern p)) in
  (keys p = [] /\
   convert fs segs = Raised (BadParameter msg_no_placeholder))
  \/ (keys p <> [] /\ forallb PyRe.match_w (keys p) = false /\
      convert fs segs = Raised (BadParameter msg_alphanumeric))
  \/ (keys p <> [] /\ forallb PyRe.match_w (keys p) = true /\
      ((exists e, (e = ReError \/ e = OutsideModel) /\
                  match_candidates (regex_pattern p) candidates = Raised e
                  /\ convert fs segs = Raised e)
       \/ (exists ms,
             match_candidates (regex_pattern p) candidates = Ok ms /\
             ((existsb is_some ms = false /\
               convert fs segs = Raised (BadParameter msg_no_files))
              \/ (existsb is_some ms = true /\
                  ~ NoDup (map fst (matches ms)) /\
                  convert fs segs = Raised (BadParameter msg_duplicate))
              \/ (existsb is_some ms = true /\
                  NoDup (map fst (matches ms)) /\
                  convert fs segs = Ok (keys p, matches ms)))))).
Proof.
  intros fs segs. cbv zeta. unfold convert.
  destruct (keys (scan segs)) as [|k ks] eqn:Ek; [left; auto|right].
  destruct (forallb PyRe.match_w (k :: ks)) eqn:Ew; cbn [negb];
    [right|left; repeat split; discriminate].
  split; [discriminate|]. split; [reflexivity|].
  destruct (match_candidates _ _) as [ms|e] eqn:Em.
  - right. exists ms. split; [reflexivity|]. cbn [bind].
    destruct (existsb is_some ms); cbn [negb]; [right|left; auto].
    destruct (length (map fst (matches ms))
              =? count_distinct (map fst (matches ms))) eqn:Ec;
      cbn [negb].
    + right. apply Nat.eqb_eq, count_distinct_full in Ec.
      repeat split; auto. now rewrite dict_of_items_nodup.
    + left. split; [reflexivity|]. split; [|reflexivity].
      intros Hnd. apply count_distinct_full, Nat.eqb_eq in Hnd.
      congruence.
  - left. exists e. cbn [bind]. split; [|auto].
    clear -Em. revert e Em.
    induction (map (realpath fs) (glob fs (glob_pattern (scan segs))))
      as [|c cs IH]; intros e Em; simpl in Em; [discriminate|].
    destruct (PyRe.rmatch (regex_pattern (scan segs)) c).
    + destruct (match_candidates _ cs); [discriminate|].
      cbn [bind] in Em. injection Em as <-. now apply IH.
    + destruct (match_candidates _ cs); [discriminate|].
      cbn [bind] in Em. injection Em as <-. now apply IH.
    + injection Em as <-. now left.
    + injection Em as <-. now right.
Qed.


Lemma forallb_false : forall (A : Type) (f : A -> bool) l,
  forallb f l = false <-> exists x, In x l /\ f x = false.
Proof.
  intros A f l. induction l as [|a l IH]; simpl.
  - split; [discriminate|intros (x & [] & _)].
  - rewrite andb_false_iff, IH. split.
    + intros [H|(x & Hx & Hf)]; [exists a; auto|exists x; auto].
    + intros (x & [<-|Hx] & Hf); [now left|right; eauto].
Qed.

(** X14.  Whether the converter fails with one of the two template errors
    is decided by the template alone, whatever the filesystem holds: it
    asks for a placeholder exactly when no field is named, and calls the
    key names non-alphanumeric exactly when some named field starts with a
    character that is not a word character. *)
Theorem template_errors : forall fs segs,
  (convert fs segs = Raised (BadParameter msg_no_placeholder)
   <-> named_fields segs = [])
  /\ (convert fs segs = Raised (BadParameter msg_alphanumeric)
      <-> exists k, In k (named_fields segs) /\ PyRe.match_w k = false).
Proof.
  intros fs segs.
  pose proof (keys_nil segs) as Hnil.
  assert (Hw : forallb PyRe.match_w (keys (scan segs)) = false
               <-> exists k, In k (named_fields segs)
                             /\ PyRe.match_w k = false).
  { rewrite forallb_false. split; intros (k & Hk & Hf); exists k;
      (split; [|exact Hf]);
      now apply keys_in_named. }
  pose proof (convert_cases fs segs) as H. cbv zeta in H.
  destruct H as [[Hk ->]|[(Hk & Hf & ->)|(Hk & Ht & H)]].
  - split.
    + split; [intros _; now apply Hnil|reflexivity].
    + split; [discriminate|]. intros Hex. apply Hw in Hex.
      rewrite Hk in Hex. discriminate.
  - split.
    + split; [discriminate|]. intros E. apply Hnil in E. contradiction.
    + split; [intros _; now apply Hw|reflexivity].
  - assert (Hno : ~ exists k, In k (named_fields segs)
                              /\ PyRe.match_w k = false)
      by (intros Hex; apply Hw in Hex; congruence).
    assert (Hne : named_fields segs <> [])
      by (intros E; apply Hnil in E; contradiction).
    destruct H as [(e & He & _ & ->)|(ms & _ & H)].
    + split; (split; [destruct He as [-> | ->]; discriminate|]);
        [intros E; contradiction|intros Hex; contradiction].
    + destruct H as [(_ & ->)|[(_ & _ & ->)|(_ & _ & ->)]];
        (split; (split; [discriminate|]));
        try (intros E; contradiction); intros Hex; contradiction.
Qed.

Lemma match_candidates_ok : forall pattern candidates ms,
  match_candidates pattern candidates = Ok ms ->
  ms = map (match_of pattern) candidates.
Proof.
  intros pattern. induction candidates as [|c cs IH]; intros ms H;
    simpl in H.
  - now injection H as <-.
  - unfold match_of at 1. simpl.
    destruct (PyRe.rmatch pattern c); try discriminate;
      destruct (match_candidates pattern cs) as [ms'|]; try discriminate;
      cbn [bind] in H; injection H as <-; now rewrite (IH ms' eq_refl).
Qed.

Lemma matches_matching : forall pattern candidates,
  matches (map (match_of pattern) candidates) = matching pattern candidates.
Proof.
  intros pattern. induction candidates as [|c cs IH]; simpl;
    [reflexivity|].
  unfold matching in *. simpl.
  destruct (match_of pattern c); simpl; now rewrite IH.
Qed.

(** X15.  A catalog that the converter returns has the key names of the
    template and one entry for each candidate that matches the pattern, in
    the order of the candidates: the key tuple captured and the text
    matched.  It is not empty, and no key tuple occurs twice. *)
Theorem catalog_lists_matching_candidates : forall fs segs (c : catalog),
  convert fs segs = Ok c ->
  fst c = keys (scan segs)
  /\ snd c = matching (regex_pattern (scan segs))
               (map (realpath fs) (glob fs (glob_pattern (scan segs))))
  /\ snd c <> []
  /\ NoDup (map fst (snd c)).
Proof.
  intros fs segs c Hc.
  pose proof (convert_cases fs segs) as H. cbv zeta in H.
  destruct H as [[_ E]|[(_ & _ & E)|(_ & _ & H)]];
    try (rewrite E in Hc; discriminate).
  destruct H as [(e & _ & _ & E)|(ms & Hm & H)];
    [rewrite E in Hc; discriminate|].
  destruct H as [(_ & E)|[(_ & _ & E)|(Hs & Hnd & E)]];
    try (rewrite E in Hc; discriminate).
  rewrite E in Hc. injection Hc as <-. simpl.
  apply match_candidates_ok in Hm. subst ms.
  rewrite matches_matching in *.
  repeat split; auto.
  intros En. apply existsb_exists in Hs as (m & Hin & Hm).
  destruct m as [m|]; [|discriminate].
  apply in_map_iff in Hin as (cand & Ec & Hin).
  assert (Hi : In m (matching (regex_pattern (scan segs))
                       (map (realpath fs)
                          (glob fs (glob_pattern (scan segs)))))).
  { unfold matching. apply in_flat_map. exists cand.
    split; [exact Hin|]. rewrite Ec. now left. }
  rewrite En in Hi. destruct Hi.
Qed.

End MoreConvert.

(* ----------------------------------------------------------------- *)
(** ** The emitted pattern, for every plain template *)

Section PlainPattern.

Import ClickUtils Template PyRe Shape More.

Lemma keys_from_prefix : forall segs ks,
  exists more, keys_from ks segs = ks ++ more.
Proof.
  induction segs as [|seg rest IH]; intros ks; simpl.
  - exists []. now rewrite app_nil_r.
  - destruct (IH (step_keys ks seg)) as [more E]. rewrite E.
    unfold step_keys.
    destruct (field_name seg) as [[|c n]|]; eauto.
    destruct (index (c :: n) ks); eauto.
    exists ((c :: n) :: more). now rewrite <- app_assoc.
Qed.

Lemma parse_group_bad : forall name r cu n nm,
  no_gt name = true -> is_identifier name = false ->
  parse (lit "(?P<" ++ name ++ lit ">[^\W_]+)" ++ r) None
        (mk_pstate [] cu n nm)
  = CompError.
Proof.
  intros name r cu n nm Hgt Hid.
  change (lit "(?P<" ++ name ++ lit ">[^\W_]+)" ++ r)
    with ("("%char :: "?"%char :: "P"%char :: "<"%char
          :: (name ++ lit ">[^\W_]+)" ++ r)).
  cbn [parse Ascii.eqb Bool.eqb andb].
  change (lit ">[^\W_]+)" ++ r) with (">"%char :: lit "[^\W_]+)" ++ r).
  rewrite parse_name.
  - cbn [parse Ascii.eqb Bool.eqb andb].
    rewrite app_nil_r, rev_involutive. now rewrite Hid.
  - intros c Hc. unfold no_gt in Hgt. rewrite forallb_forall in Hgt.
    now apply negb_true_iff, Hgt.
Qed.

Lemma identifier_no_gt_all : forall name,
  is_identifier name = true -> no_gt name = true.
Proof.
  intros name H. apply forallb_forall. intros c Hc.
  apply negb_true_iff. now apply (identifier_no_gt name).
Qed.

Lemma regex_from_head_plain : forall rest ks,
  follows_plain rest = true -> no_digit_head (regex_from ks rest) = true.
Proof.
  intros [|seg rest] ks H; [reflexivity|]. simpl in *.
  unfold step_regex. rewrite <- app_assoc.
  destruct (before_field seg) as [|c l] eqn:E.
  - simpl. destruct (field_name seg) as [[|c n]|]; [reflexivity| |discriminate].
    destruct (index (c :: n) ks); reflexivity.
  - unfold escape; simpl. unfold escape_char.
    destruct (escape_special c); [reflexivity|exact H].
Qed.

(** The pattern emitted for a plain template with fewer than 100 key names
    is accepted when the key names met are identifiers, and refused
    otherwise. *)
Lemma parse_plain_template : forall segs ks cu nm,
  plain segs = true ->
  (forall x, In x nm <-> In x ks) ->
  length (keys_from ks segs) < 100 ->
  parse (regex_from ks segs) None (mk_pstate [] cu (length ks) nm)
  = if forallb is_identifier (skipn (length ks) (keys_from ks segs))
    then CompOk (length (keys_from ks segs)) (rev cu ++ nodes_from ks segs)
    else CompError.
Proof.
  induction segs as [|seg rest IH]; intros ks cu nm Hp Hnm Hlen.
  - simpl. rewrite skipn_all. simpl. now rewrite app_nil_r.
  - cbn [regex_from nodes_from keys_from plain] in *.
    apply andb_true_iff in Hp as [Hseg Hrest].
    unfold step_regex, step_nodes. rewrite <- !app_assoc.
    rewrite parse_escape.
    assert (Hrev : forall tail,
              rev (rev (map NChar (before_field seg)) ++ cu) ++ tail
              = rev cu ++ map NChar (before_field seg) ++ tail).
    { intros tail. now rewrite rev_app_distr, rev_involutive, <- app_assoc. }
    pose proof (keys_from_length rest (step_keys ks seg)) as Hmono.
    unfold step_keys in *.
    destruct (field_name seg) as [[|c n]|].
    + change (lit ".*?" ++ regex_from ks rest)
        with ("."%char :: "*"%char :: "?"%char :: regex_from ks rest).
      cbn [parse Ascii.eqb Bool.eqb andb]. unfold push. cbn [frames cur
        ngroups names].
      rewrite IH by assumption.
      destruct (forallb _ _); [|reflexivity].
      f_equal. cbn [rev]. rewrite <- app_assoc. cbn [app].
      apply Hrev.
    + apply andb_true_iff in Hseg as [Hgt Hfol].
      destruct (index (c :: n) ks) as [i|] eqn:Ei.
      * pose proof (index_bound _ _ Ei) as Hi.
        rewrite <- !app_assoc. rewrite parse_backref.
        -- rewrite IH by assumption.
           destruct (forallb _ _); [|reflexivity].
           f_equal. cbn [rev]. rewrite <- app_assoc. cbn [app].
           apply Hrev.
        -- apply two_digits_below_100. lia.
        -- lia.
        -- now apply regex_from_head_plain.
      * pose proof (index_none _ _ Ei) as Hni.
        destruct (keys_from_prefix rest (ks ++ [c :: n])) as [more Em].
        rewrite Em in *.
        replace (skipn (length ks) ((ks ++ [c :: n]) ++ more))
          with ((c :: n) :: more)
          by (rewrite <- app_assoc; now rewrite skipn_length_app).
        cbn [forallb].
        rewrite <- !app_assoc.
        destruct (is_identifier (c :: n)) eqn:Hid.
        -- rewrite parse_group.
           ++ replace (S (length ks)) with (length (ks ++ [c :: n]))
                by (rewrite length_app; simpl; lia).
              rewrite IH.
              ** rewrite Em, skipn_length_app. cbn [andb].
                 destruct (forallb is_identifier more); [|reflexivity].
                 f_equal; [now rewrite <- app_assoc|].
                 cbn [rev]. rewrite <- app_assoc. cbn [app].
                 apply Hrev.
              ** exact Hrest.
              ** intros x. rewrite in_app_iff. simpl. rewrite Hnm. tauto.
              ** now rewrite Em.
           ++ exact Hid.
           ++ unfold mem.
              destruct (in_dec str_eq_dec (c :: n) nm) as [Hin|];
                [|reflexivity].
              apply Hnm in Hin. contradiction.
        -- cbn [andb]. now apply parse_group_bad.
    + cbn [app]. rewrite IH by assumption.
      destruct (forallb _ _); [|reflexivity]. f_equal. apply Hrev.
Qed.

Lemma compile_plain : forall segs,
  plain segs = true -> length (keys (scan segs)) < 100 ->
  compile (regex_pattern (scan segs))
  = if forallb is_identifier (keys (scan segs))
    then CompOk (length (keys (scan segs))) (nodes_from [] segs)
    else CompError.
Proof.
  intros segs Hp Hlen. rewrite scan_keys in *. rewrite scan_regex.
  unfold compile, pstate0.
  assert (Hnm : forall x : str, In x [] <-> In x []) by tauto.
  exact (parse_plain_template segs [] [] [] Hp Hnm Hlen).
Qed.


Lemma compiled_candidates : forall pattern n nodes candidates,
  compile pattern = CompOk n nodes ->
  match_candidates pattern candidates
  = Ok (map (match_of pattern) candidates).
Proof.
  intros pattern n nodes candidates Hc.
  apply match_candidates_settled. intros c _. unfold rmatch. rewrite Hc.
  destruct (m_list nodes _ _ c) as [[cs r]|]; eauto.
Qed.

(** X16.  For a plain template with fewer than 100 key names that are all
    identifiers, the pattern is one that the regular-expression module
    accepts: the converter returns a catalog or fails with one of its own
    messages, whatever the filesystem holds. *)
Theorem identifier_keys_never_break_the_pattern :
  forall fs segs,
  plain segs = true -> length (keys (scan segs)) < 100 ->
  forallb is_identifier (keys (scan segs)) = true ->
  (exists c, convert fs segs = Ok c)
  \/ (exists msg, convert fs segs = Raised (BadParameter msg)).
Proof.
  intros fs segs Hp Hlen Hid.
  pose proof (compile_plain segs Hp Hlen) as Hc. rewrite Hid in Hc.
  pose proof (convert_cases fs segs) as H. cbv zeta in H.
  destruct H as [[_ E]|[(_ & _ & E)|(_ & _ & H)]]; [right; eauto..|].
  destruct H as [(e & _ & Hm & _)|(ms & _ & H)].
  - rewrite (@compiled_candidates _ _ _ _ Hc) in Hm. discriminate.
  - destruct H as [(_ & E)|[(_ & _ & E)|(_ & _ & E)]]; eauto.
Qed.

(** X17.  For a plain template with fewer than 100 key names that pass the
    check of the converter, a key name that is not an identifier makes the
    converter raise the error of the regular-expression module as soon as
    the glob lists a file. *)
Theorem other_key_names_raise_re_error :
  forall fs segs,
  plain segs = true -> length (keys (scan segs)) < 100 ->
  forallb is_identifier (keys (scan segs)) = false ->
  forallb match_w (keys (scan segs)) = true ->
  glob fs (glob_pattern (scan segs)) <> [] ->
  convert fs segs = Raised ReError.
Proof.
  intros fs segs Hp Hlen Hid Hw Hg.
  pose proof (compile_plain segs Hp Hlen) as Hc. rewrite Hid in Hc.
  unfold convert.
  destruct (keys (scan segs)) as [|k ks] eqn:Ek; [discriminate|].
  rewrite Hw. cbn [negb].
  destruct (glob fs (glob_pattern (scan segs))) as [|g gs];
    [now elim Hg|].
  simpl. unfold rmatch. now rewrite Hc.
Qed.

(* ----------------------------------------------------------------- *)
(** ** What a match says about the candidate *)

Lemma greedy_inv : forall K s r,
  greedy_loop K s = Some r ->
  exists v s', s = v ++ s' /\ v <> [] /\ forallb is_alnum v = true
               /\ K s' = Some r.
Proof.
  intros K. induction s as [|c s IH]; intros r H; simpl in H;
    [discriminate|].
  destruct (is_alnum c) eqn:Ec; [|discriminate].
  destruct (greedy_loop K s) as [r'|] eqn:Eg.
  - injection H as ->.
    destruct (IH r eq_refl) as (v & s' & -> & _ & Hv & HK).
    exists (c :: v), s'. simpl. rewrite Ec, Hv.
    repeat split; auto. discriminate.
  - exists [c], s. simpl. rewrite Ec. repeat split; auto. discriminate.
Qed.

Lemma lazy_inv : forall K s r,
  lazy_loop K s = Some r ->
  exists u s', s = u ++ s'
               /\ forallb (fun c => negb (c =? "010")%char) u = true
               /\ K s' = Some r.
Proof.
  intros K. induction s as [|c s IH]; intros r H; simpl in H.
  - destruct (K []) eqn:EK; [|discriminate]. injection H as ->.
    exists [], []. auto.
  - destruct (K (c :: s)) eqn:EK.
    + injection H as ->. exists [], (c :: s). auto.
    + destruct (c =? "010")%char eqn:Ec; [discriminate|].
      destruct (IH r H) as (u & s' & -> & Hu & HK).
      exists (c :: u), s'. simpl. rewrite Ec, Hu. auto.
Qed.

Lemma strip_prefix_inv : forall p s s',
  strip_prefix p s = Some s' -> s = p ++ s'.
Proof.
  induction p as [|a p IH]; intros s s' H; simpl in H.
  - now injection H as ->.
  - destruct s as [|b s]; [discriminate|].
    destruct (a =? b)%char eqn:E; [|discriminate].
    apply Ascii.eqb_eq in E. subst b. simpl. f_equal. now apply IH.
Qed.

Lemma chars_inv : forall l K cs s r,
  m_list (map NChar l) K cs s = Some r ->
  exists s', s = l ++ s' /\ K cs s' = Some r.
Proof.
  induction l as [|c l IH]; intros K cs s r H; simpl in H.
  - exists s. auto.
  - destruct s as [|c' s]; [discriminate|].
    destruct (c =? c')%char eqn:E; [|discriminate].
    apply Ascii.eqb_eq in E. subst c'.
    destruct (IH K cs s r H) as (s' & -> & HK). exists s'. auto.
Qed.

Lemma set_nth_length : forall i v cs, length (set_nth i v cs) = length cs.
Proof.
  induction i as [|i IH]; intros v [|c cs]; simpl; auto.
Qed.

Lemma set_nth_same : forall i v cs,
  i < length cs -> nth i (set_nth i v cs) [] = v.
Proof.
  induction i as [|i IH]; intros v [|c cs] H; simpl in *; try lia; auto.
  apply IH. lia.
Qed.

Lemma set_nth_other : forall i j v cs,
  i <> j -> nth i (set_nth j v cs) [] = nth i cs [].
Proof.
  induction i as [|i IH]; intros [|j] v [|c cs] H; simpl; auto;
    try congruence.
Qed.

Lemma index_app_l : forall x ks more i,
  index x ks = Some i -> index x (ks ++ more) = Some i.
Proof.
  intros x ks more. induction ks as [|y ks IH]; simpl; intros i H;
    [discriminate|].
  destruct (str_eq_dec x y); [exact H|].
  destruct (index x ks) as [j|]; [|discriminate].
  now rewrite (IH j eq_refl).
Qed.


Lemma value_of_known : forall keys more t name i,
  index name keys = Some i ->
  value_of (keys ++ more) t name = nth i t [].
Proof.
  intros keys more t name i H. unfold value_of.
  now rewrite (@index_app_l name keys more i H).
Qed.

(** A match of the nodes of a template splits the text into the pieces the
    template names; the captures of the key names met so far stay, and
    each new capture is alphanumeric and not empty. *)
Lemma nodes_inv : forall segs ks K cs s res,
  m_list (nodes_from ks segs) K cs s = Some res ->
  length (keys_from ks segs) <= length cs ->
  exists cs' w s',
    s = w ++ s' /\ K cs' s' = Some res /\ length cs' = length cs
    /\ (forall i, i < length ks -> nth i cs' [] = nth i cs [])
    /\ (forall i, length ks <= i < length (keys_from ks segs) ->
                  alnum_value (nth i cs' []))
    /\ fills (value_of (keys_from ks segs) cs') segs w.
Proof.
  induction segs as [|seg rest IH]; intros ks K cs s res H Hlen.
  - simpl in *. exists cs, [], s.
    refine (conj eq_refl (conj H (conj eq_refl (conj _ (conj _ _))))).
    + reflexivity.
    + intros i Hi. lia.
    + constructor.
  - cbn [nodes_from keys_from] in *.
    unfold step_nodes in H. rewrite <- app_assoc in H.
    rewrite m_list_app in H. apply chars_inv in H as (s1 & -> & H).
    rewrite m_list_app in H.
    pose proof (keys_from_length rest (step_keys ks seg)) as Hmono.
    destruct (keys_from_prefix rest (step_keys ks seg)) as [more Em].
    specialize (IH (step_keys ks seg)).
    unfold step_keys in *.
    destruct (field_name seg) as [[|c n]|] eqn:Ef.
    + cbn [m_list m_node] in H.
      apply lazy_inv in H as (u & s2 & -> & Hu & H).
      destruct (IH K cs s2 res H Hlen)
        as (cs' & w & s' & -> & HK & Hl & Hkeep & Hal & Hf).
      exists cs', (before_field seg ++ u ++ w), s'.
      rewrite <- !app_assoc.
      refine (conj eq_refl (conj HK (conj Hl (conj Hkeep (conj Hal _))))).
      now apply fills_unnamed.
    + destruct (index (c :: n) ks) as [i|] eqn:Ei.
      * cbn [m_list m_node] in H. replace (i + 1 - 1) with i in H by lia.
        destruct (strip_prefix (nth i cs []) s1) as [s2|] eqn:Es;
          [|discriminate].
        apply strip_prefix_inv in Es. subst s1.
        destruct (IH K cs s2 res H Hlen)
          as (cs' & w & s' & -> & HK & Hl & Hkeep & Hal & Hf).
        exists cs', (before_field seg ++ nth i cs [] ++ w), s'.
        rewrite <- !app_assoc.
        refine (conj eq_refl (conj HK (conj Hl (conj Hkeep (conj Hal _))))).
        pose proof (index_bound _ _ Ei) as Hi.
        rewrite <- (Hkeep i Hi).
        rewrite Em in *.
        rewrite <- (@value_of_known ks more cs' (c :: n) i Ei).
        now apply fills_named.
      * change (greedy_loop
                  (fun s' => m_list (nodes_from (ks ++ [c :: n]) rest) K
                               (set_cap (S (length ks)) (consumed s1 s') cs)
                               s') s1 = Some res) in H.
        apply greedy_inv in H as (v & s2 & -> & Hne & Hv & H).
        rewrite consumed_app in H. unfold set_cap in H.
        replace (S (length ks) - 1) with (length ks) in H by lia.
        rewrite length_app in Hmono. simpl in Hmono.
        assert (Hks : length ks < length cs) by lia.
        destruct (IH K (set_nth (length ks) v cs) s2 res H)
          as (cs' & w & s' & -> & HK & Hl & Hkeep & Hal & Hf);
          [now rewrite set_nth_length|].
        rewrite set_nth_length in Hl.
        assert (Hnew : nth (length ks) cs' [] = v).
        { rewrite Hkeep by (rewrite length_app; simpl; lia).
          now apply set_nth_same. }
        exists cs', (before_field seg ++ v ++ w), s'.
        rewrite <- !app_assoc.
        refine (conj eq_refl (conj HK (conj Hl (conj _ (conj _ _))))).
        -- intros i Hi. rewrite Hkeep by (rewrite length_app; simpl; lia).
           apply set_nth_other. lia.
        -- intros i Hi.
           destruct (Nat.eq_dec i (length ks)) as [->|Hd].
           ++ rewrite Hnew. split; assumption.
           ++ apply Hal. rewrite length_app. simpl. lia.
        -- rewrite <- Hnew at 1.
           pose proof (index_none _ _ Ei) as Hni.
           rewrite Em in *.
           rewrite <- (@value_of_known (ks ++ [c :: n]) more cs' (c :: n) _
                         (@index_last (c :: n) ks Hni)).
           now apply fills_named.
    + cbn [m_list app] in H.
      destruct (IH K cs s1 res H Hlen)
        as (cs' & w & s' & -> & HK & Hl & Hkeep & Hal & Hf).
      exists cs', (before_field seg ++ w), s'.
      rewrite <- !app_assoc.
      refine (conj eq_refl (conj HK (conj Hl (conj Hkeep (conj Hal _))))).
      now apply fills_literal.
Qed.

Lemma rmatch_sound : forall segs cand t w,
  plain segs = true -> length (keys (scan segs)) < 100 ->
  forallb is_identifier (keys (scan segs)) = true ->
  rmatch (regex_pattern (scan segs)) cand = Match t w ->
  length t = length (keys (scan segs))
  /\ Forall alnum_value t
  /\ (exists rest, cand = w ++ rest)
  /\ fills (value_of (keys (scan segs)) t) segs w.
Proof.
  intros segs cand t w Hp Hlen Hid H. unfold rmatch in H.
  rewrite (compile_plain segs Hp Hlen), Hid in H.
  rewrite scan_keys in *.
  destruct (m_list (nodes_from [] segs) _ _ cand) as [[cs r]|] eqn:Em;
    [|discriminate].
  injection H as <- <-.
  apply nodes_inv in Em; [|now rewrite repeat_length].
  destruct Em as (cs' & w & s' & -> & HK & Hl & _ & Hal & Hf).
  injection HK as <- <-. rewrite repeat_length in Hl.
  rewrite consumed_app.
  refine (conj Hl (conj _ (conj _ Hf))).
  - apply Forall_nth. intros i d Hi.
    rewrite (nth_indep cs' d []) by exact Hi. apply Hal. simpl. lia.
  - now exists s'.
Qed.

Lemma catalog_entry : forall fs segs (c : catalog) t p,
  convert fs segs = Ok c -> In (t, p) (snd c) ->
  fst c = keys (scan segs)
  /\ exists cand,
       In cand (map (realpath fs) (glob fs (glob_pattern (scan segs))))
       /\ rmatch (regex_pattern (scan segs)) cand = Match t p.
Proof.
  intros fs segs c t p Hc Hin.
  pose proof (convert_cases fs segs) as H. cbv zeta in H.
  destruct H as [[_ E]|[(_ & _ & E)|(_ & _ & H)]];
    try (rewrite E in Hc; discriminate).
  destruct H as [(e & _ & _ & E)|(ms & Hm & H)];
    [rewrite E in Hc; discriminate|].
  destruct H as [(_ & E)|[(_ & _ & E)|(_ & _ & E)]];
    try (rewrite E in Hc; discriminate).
  rewrite E in Hc. injection Hc as <-. simpl in *.
  split; [reflexivity|].
  apply match_candidates_ok in Hm. subst ms.
  rewrite matches_matching in Hin. unfold matching in Hin.
  apply in_flat_map in Hin as (cand & Hcand & Hin).
  exists cand. split; [exact Hcand|].
  unfold match_of in Hin.
  destruct (rmatch (regex_pattern (scan segs)) cand) as [|g w| |];
    simpl in Hin; try contradiction.
  destruct Hin as [E'|[]]. now injection E' as -> ->.
Qed.

(** X18.  For a plain template with fewer than 100 key names that are all
    identifiers, every entry of a catalog the converter returns reads the
    template: the key tuple has one value for each key name, each value
    alphanumeric and not empty, and the path is the template with these
    values in place of the named fields, the same value at every
    occurrence of a name, and some text without a newline in place of each
    unnamed field.  The path starts a candidate. *)
Theorem catalog_entries_read_the_template :
  forall fs segs (c : catalog) t p,
  plain segs = true -> length (keys (scan segs)) < 100 ->
  forallb is_identifier (keys (scan segs)) = true ->
  convert fs segs = Ok c -> In (t, p) (snd c) ->
  length t = length (fst c)
  /\ Forall alnum_value t
  /\ fills (value_of (fst c) t) segs p
  /\ exists cand rest,
       In cand (map (realpath fs) (glob fs (glob_pattern (scan segs))))
       /\ cand = p ++ rest.
Proof.
  intros fs segs c t p Hp Hlen Hid Hc Hin.
  destruct (catalog_entry fs segs t p Hc Hin) as (Ek & cand & Hcand & Hm).
  destruct (rmatch_sound segs cand Hp Hlen Hid Hm)
    as (Hl & Hal & (rest & Hrest) & Hf).
  rewrite Ek. refine (conj Hl (conj Hal (conj Hf _))).
  now exists cand, rest.
Qed.

End PlainPattern.

(* ----------------------------------------------------------------- *)
(** ** The further properties on worked inputs *)

Section MoreWorked.

Import ClickUtils Ingest Template Shape More Examples MoreExamples.

Lemma missing_rgb_key_touches_nothing_witness :
  ingest fs_pg 0 cat_pg store_new false (Some (lit "date")) true None
  = mk_run (Raised (BadParameter msg_rgb_key)) store_new [].
Proof.
  apply missing_rgb_key_touches_nothing.
  simpl. intros [E|[E|[]]]; discriminate.
Defined.

Lemma new_store_holds_the_catalog_witness :
  ingest fs_pg 0 cat_pg store_new true None false None
  = mk_run (Ok tt)
      (mk_store true (fst cat_pg) (snd cat_pg) (rejects store_new))
      (inserted true (snd cat_pg) ++ [ClearCache]).
Proof.
  apply (@new_store_holds_the_catalog fs_pg 0%Z (fst cat_pg) (snd cat_pg)
           store_new true false).
  - reflexivity.
  - intros key path. reflexivity.
  - exact (proj1 wf_cat_pg).
Defined.

Lemma ingested_paths_can_be_read_back_witness :
  dict_get [lit "p"; lit "red"]
    (datasets (final (ingest fs_pg 0 cat_pg store_pg false None false None)))
  = Some (lit "/p/red.tif").
Proof.
  apply (@ingested_paths_can_be_read_back fs_pg 0%Z (fst cat_pg)
           (snd cat_pg) store_pg false).
  - reflexivity.
  - intros key path. reflexivity.
  - exact (proj1 wf_cat_pg).
  - simpl. now left.
Defined.

Lemma second_run_skips_everything_witness :
  filter is_inserted
    (trace (ingest fs_pg 0 cat_pg
              (final (ingest fs_pg 0 cat_pg store_new false None false None))
              false None true None))
  = [].
Proof.
  apply (@second_run_skips_everything fs_pg 0%Z cat_pg store_new false None
           false).
  vm_compute. reflexivity.
Defined.

Lemma rejected_insert_stops_the_batch_witness :
  let r := ingest fs_pg 0 cat_pg store_no_green false None false None in
  result r = Raised InsertError
  /\ filter is_inserted (trace r)
     = [Inserted [lit "p"; lit "red"] (lit "/p/red.tif") false].
Proof.
  cbv zeta.
  destruct (@rejected_insert_stops_the_batch fs_pg 0%Z (fst cat_pg)
              [([lit "p"; lit "red"], lit "/p/red.tif")] []
              [lit "p"; lit "green"] (lit "/p/green.tif")
              store_no_green false)
    as (H1 & H2 & _).
  - reflexivity.
  - intros kv [<-|[]]. vm_compute. reflexivity.
  - vm_compute. reflexivity.
  - split; [exact H1|exact H2].
Defined.

Lemma existing_store_is_only_added_to_witness :
  key_names (final (ingest fs_pg 0 cat_a store_pg false None false None))
  = [lit "name"; lit "band"].
Proof.
  apply (@existing_store_is_only_added_to fs_pg 0%Z cat_a store_pg false
           None false None).
  reflexivity.
Defined.


Lemma overflowing_cutoff_stops_the_run_witness :
  let r := ingest fs_pg 0 cat_pg store_new false None false
             (Some (Delta 5)) in
  result r = Raised OverflowError
  /\ filter is_inserted (trace r) = []
  /\ ~ In ClearCache (trace r)
  /\ final r = mk_store true (fst cat_pg) [] (rejects store_new).
Proof.
  apply (@overflowing_cutoff_stops_the_run fs_pg 0%Z cat_pg store_new false
           false 5%Z).
  lia.
Defined.

Lemma reorder_is_idempotent_witness :
  reorder (lit "name") ([lit "band"; lit "name"],
                        [([lit "red"; lit "p"], lit "/p/red.tif");
                         ([lit "green"; lit "p"], lit "/p/green.tif")])
  = Ok ([lit "band"; lit "name"],
        [([lit "red"; lit "p"], lit "/p/red.tif");
         ([lit "green"; lit "p"], lit "/p/green.tif")]).
Proof.
  apply (@reorder_is_idempotent cat_pg _ (lit "name")).
  - exact wf_cat_pg.
  - simpl. constructor; [intros [E|[]]; discriminate|].
    constructor; [intros []|constructor].
  - vm_compute. reflexivity.
Defined.

Lemma catalog_lists_matching_candidates_witness :
  snd cat_pg
  = matching (regex_pattern (scan tmpl_pg))
      (map (realpath fs_pg) (glob fs_pg (glob_pattern (scan tmpl_pg)))).
Proof.
  apply (@catalog_lists_matching_candidates fs_pg tmpl_pg cat_pg).
  vm_compute. reflexivity.
Defined.

Lemma identifier_keys_never_break_the_pattern_witness :
  (exists c, convert fs_no_match tmpl_name = Ok c)
  \/ (exists msg, convert fs_no_match tmpl_name = Raised (BadParameter msg)).
Proof.
  apply identifier_keys_never_break_the_pattern.
  - vm_compute. reflexivity.
  - vm_compute. lia.
  - vm_compute. reflexivity.
Defined.

Lemma other_key_names_raise_re_error_witness :
  convert fs_one_file tmpl_hyphen = Raised ReError.
Proof.
  apply other_key_names_raise_re_error.
  - vm_compute. reflexivity.
  - vm_compute. lia.
  - vm_compute. reflexivity.
  - vm_compute. reflexivity.
  - vm_compute. discriminate.
Defined.

Lemma catalog_entries_read_the_template_witness :
  fills (value_of [lit "name"; lit "band"] [lit "a"; lit "red"])
        tmpl_repeat (lit "/a/a_red_x.tif").
Proof.
  apply (@catalog_entries_read_the_template fs_repeat tmpl_repeat
           ([lit "name"; lit "band"],
            [([lit "a"; lit "red"], lit "/a/a_red_x.tif")])
           [lit "a"; lit "red"] (lit "/a/a_red_x.tif")).
  - vm_compute. reflexivity.
  - vm_compute. lia.
  - vm_compute. reflexivity.
  - vm_compute. reflexivity.
  - simpl. now left.
Defined.

End MoreWorked.

(* ----------------------------------------------------------------- *)
(** ** The two filters together *)

Section BothFilters.

Import Ingest More Examples MoreExamples.




End BothFilters.
